(** * JASSv2: postings accumulation, impact quantisation and the SIMD
      Elias-gamma variable-byte codec

    A shallow embedding of the parts of JASSv2 that the specification's
    testable properties talk about:

    - [compress_integer_elias_gamma_simd_vb] (compute_selector, encode,
      mask_set, decode) from compress_integer_elias_gamma_simd_vb.cpp;
    - [index_postings] (push_back, the iterator, text_render) from
      index_postings.h;
    - [pointer_box] (compare and the comparison operators) from pointer_box.h;
    - [quantize] (both passes and get_bounds) from quantize.h;
    - [printer] (set_score, push_back, add_rsv) from JASSv1_to_human.cpp.

    Unsigned machine integers are values of [Z] with the wrap-around written
    out where the source can wrap; a [double] is a primitive binary64 float;
    arrays and SIMD registers are lists of lanes; output streams are strings. *)

From Stdlib Require Import String Ascii.
From Stdlib Require Import ZArith List Lia Bool.
From Stdlib Require Import PrimFloat FloatOps SpecFloat FloatAxioms Uint63.
From Stdlib Require DecimalString.
Import ListNotations.

Local Open Scope Z_scope.

(** ** Machine integers and C arrays *)

Definition uint8_t (x : Z) : Z := x mod 2 ^ 8.
Definition uint16_t (x : Z) : Z := x mod 2 ^ 16.
Definition uint32_t (x : Z) : Z := x mod 2 ^ 32.

(** [a[i]]: reading outside the array is undefined in C++; the model reads 0. *)
Definition at_ (a : list Z) (i : Z) : Z := nth (Z.to_nat i) a 0.

(** [a[i] = v]: writing outside the array is undefined in C++; the model
    leaves the array as it is. *)
Fixpoint store_nat (a : list Z) (i : nat) (v : Z) : list Z :=
  match a, i with
  | [], _ => []
  | _ :: a', O => v :: a'
  | x :: a', S i' => x :: store_nat a' i' v
  end.

Definition store (a : list Z) (i : Z) (v : Z) : list Z :=
  if i <? 0 then a else store_nat a (Z.to_nat i) v.

(** The indices [0 .. n-1] of a counted [for] loop. *)
Definition indices (n : Z) : list Z := map Z.of_nat (seq 0 (Z.to_nat n)).

(** ** maths.h (not among the sources) *)
Module maths.

(** Modelled from the spec: [maths::ceiling_log2] (maths.h is missing).  The
    specification gives the slice width as the ceiling of the base-2 logarithm
    of the group's value, "with w = 1 for all-zero or all-one groups". *)
Definition ceiling_log2 (x : Z) : Z :=
  if x <=? 1 then 1 else Z.log2_up x.

End maths.

(** ** compress_integer_elias_gamma_simd_vb.cpp *)
Module compress_integer_elias_gamma_simd_vb.

Definition WORD_WIDTH : Z := 32.
Definition WORDS : Z := 512 / WORD_WIDTH.

(** First loop of compute_selector:
    [for (current = 0; current < 32; current++) if (encodings[current] == 0) break;]
    returns the value of [current] when the loop is left. *)
Fixpoint find_terminator (todo : nat) (encodings : list Z) (current : nat) : nat :=
  match todo with
  | O => current
  | S todo' =>
      if at_ encodings (Z.of_nat current) =? 0 then current
      else find_terminator todo' encodings (S current)
  end.

(** Second loop of compute_selector:
    [for (current--; current >= 0; current--) { ... }]; the argument is the
    value of [current] before the initial decrement, so the body runs for
    [current - 1] down to [0].  [value] is a uint32_t: the shift and the OR
    are written with their 32-bit wrap-around ([value <<= 32] can only happen
    while [value] is 0). *)
Fixpoint permutation_number (current : nat) (encodings : list Z) (value : Z) : Z :=
  match current with
  | O => value
  | S current' =>
      let number_of_0s := at_ encodings (Z.of_nat current') in
      let value := uint32_t (Z.shiftl value number_of_0s) in
      let value := Z.lor value (uint32_t (Z.shiftl 1 (number_of_0s - 1))) in
      permutation_number current' encodings value
  end.

Definition compute_selector (encodings : list Z) : Z :=
  let current := find_terminator 32 encodings 0 in
  permutation_number current encodings 0.

(** The width of a column: the OR of the (up to) 16 values of the group,
    seeded with 1 ([max_width |= word < elements ? array[word] : 1]). *)
Definition column_bits (array : list Z) (elements : Z) : Z :=
  fold_left
    (fun max_width word =>
       Z.lor max_width (if word <? elements then at_ array word else 1))
    (indices WORDS) 1.

(** [destination[word] |= value << cumulative_shift] for the 16 words. *)
Definition pack_column (destination array : list Z) (elements cumulative_shift : Z)
  : list Z :=
  map
    (fun word =>
       let value := if word <? elements then at_ array word else 0 in
       Z.lor (at_ destination word) (uint32_t (Z.shiftl value cumulative_shift)))
    (indices WORDS).

(** How the [for (slice ...)] loop of encode is left. *)
Inductive slice_loop_exit : Type :=
| Finished (encodings destination : list Z)
    (* the [return] inside the loop: the input is exhausted *)
| NextCodeword (slice : nat) (encodings destination : list Z) (remaining : Z)
    (array : list Z) (elements : Z).
    (* [break] (the column did not fit) or [slice == 32] *)

(** The [for (slice = 0; slice < 32; slice++)] loop of encode; [todo] is
    [32 - slice]. [array += WORDS] drops 16 elements of the list. *)
Fixpoint pack_slices (todo slice : nat) (encodings destination : list Z)
    (remaining cumulative_shift : Z) (array : list Z) (elements : Z)
  : slice_loop_exit :=
  match todo with
  | O => NextCodeword slice encodings destination remaining array elements
  | S todo' =>
      let max_width := maths.ceiling_log2 (column_bits array elements) in
      if max_width <=? remaining then
        let encodings := store encodings (Z.of_nat slice) (uint8_t max_width) in
        let destination := pack_column destination array elements cumulative_shift in
        let cumulative_shift := cumulative_shift + max_width in
        let remaining := remaining - max_width in
        let array' := skipn (Z.to_nat WORDS) array in
        if WORDS >=? elements then
          let encodings :=
            store encodings (Z.of_nat slice)
              (uint8_t (at_ encodings (Z.of_nat slice) + remaining)) in
          let encodings := store encodings (Z.of_nat slice + 1) 0 in
          Finished encodings destination
        else
          pack_slices todo' (S slice) encodings destination remaining
            cumulative_shift array' (elements - WORDS)
      else NextCodeword slice encodings destination remaining array elements
  end.

(** The [while (1)] loop of encode.  [destination] is the byte offset of the
    write pointer from [encoded]; the result is the returned byte count and
    the words written to the buffer from [destination] on.  [None] stands for
    running out of [fuel] (the theorems show it does not happen). *)
Fixpoint encode_frames (fuel : nat) (encodings : list Z) (destination : Z)
    (encoded_buffer_length : Z) (array : list Z) (elements : Z)
  : option (Z * list Z) :=
  match fuel with
  | O => None
  | S fuel' =>
      if destination + 4 * (WORDS + 1 + 1) >? encoded_buffer_length then
        Some (0, [])
      else
        match pack_slices 32 0 encodings (repeat 0 (Z.to_nat WORDS)) WORD_WIDTH 0
                array elements with
        | Finished encodings payload =>
            Some (destination + 4 + 4 * WORDS,
                  compute_selector encodings :: payload)
        | NextCodeword slice encodings payload remaining array elements =>
            let encodings :=
              store encodings (Z.of_nat slice - 1)
                (uint8_t (at_ encodings (Z.of_nat slice - 1) + remaining)) in
            let encodings := store encodings (Z.of_nat slice) 0 in
            match encode_frames fuel' encodings (destination + 4 + 4 * WORDS)
                    encoded_buffer_length array elements with
            | Some (bytes, rest) =>
                Some (bytes, (compute_selector encodings :: payload) ++ rest)
            | None => None
            end
        end
  end.

(** [encode(encoded, encoded_buffer_length, array, elements)]: the returned
    byte count together with the 32-bit words written to [encoded]. Every
    codeword consumes at least one group of 16 integers, so [elements + 1]
    rounds of the outer loop are enough. *)
Definition encode (encoded_buffer_length : Z) (array : list Z) (elements : Z)
  : option (Z * list Z) :=
  encode_frames (S (Z.to_nat elements)) (repeat 0 33) 0 encoded_buffer_length
    array elements.

(** One row of [mask_set] holds 16 copies of the same mask; the masks of
    rows 0 to 32 are: *)
Definition mask_values : list Z :=
  [ 0x00; 0x01; 0x03; 0x07; 0x0f; 0x1f; 0x3f; 0x7f; 0xff;
    0x1ff; 0x3ff; 0x7ff; 0xfff; 0x1fff; 0x3fff; 0x7fff; 0xffff;
    0x1ffff; 0x3ffff; 0x7ffff; 0xfffff; 0x1fffff; 0x3fffff; 0x7fffff; 0xffffff;
    0x1ffffff; 0x3ffffff; 0x7ffffff; 0xfffffff;
    0x1fffffff; 0x3fffffff; 0x7fffffff; 0xffffffff ].

Definition mask_set (width : Z) : list Z := repeat (at_ mask_values width) 16.

(** Modelled from the spec: the lowest set bit of a positive number, counted
    from 1 (the work of [find_first_set_bit], which is not among the
    sources). *)
Fixpoint find_first_set_bit_pos (p : positive) : Z :=
  match p with
  | xO p' => 1 + find_first_set_bit_pos p'
  | _ => 1
  end.

(** Modelled from the spec: [find_first_set_bit] (declared outside the
    sources): the "1-based index of lowest set bit"; 0 when no bit is set. *)
Definition find_first_set_bit (x : Z) : Z :=
  match x with
  | Zpos p => find_first_set_bit_pos p
  | _ => 0
  end.

(** A [__m256i] used as 8 lanes of 32 bits is a list of 8 words; the encoded
    buffer is a list of 32-bit words addressed by byte offset. *)
Definition load32 (mem : list Z) (source : Z) : Z := at_ mem (source / 4).

Definition _mm256_loadu_si256 (mem : list Z) (source : Z) : list Z :=
  map (fun lane => load32 mem (source + 4 * lane)) (indices 8).

Definition _mm256_and_si256 (a b : list Z) : list Z :=
  map (fun ab => Z.land (fst ab) (snd ab)) (combine a b).

Definition _mm256_srli_epi32 (a : list Z) (count : Z) : list Z :=
  map (fun lane => if count >? 31 then 0 else Z.shiftr lane count) a.

(** The [while (1)] loop of decode.  The result is the sequence of integers
    stored through [into], in order; [None] stands for running out of
    [fuel]. *)
Fixpoint decode_loop (fuel : nat) (selector : Z) (payload1 payload2 : list Z)
    (mem : list Z) (source end_of_source : Z) : option (list Z) :=
  match fuel with
  | O => None
  | S fuel' =>
      let body selector payload1 payload2 source :=
        let width := uint32_t (find_first_set_bit selector) in
        let mask := firstn 8 (mask_set width) in
        let stored :=
          _mm256_and_si256 payload1 mask ++ _mm256_and_si256 payload2 mask in
        match decode_loop fuel' (Z.shiftr selector width)
                (_mm256_srli_epi32 payload1 width)
                (_mm256_srli_epi32 payload2 width) mem source end_of_source with
        | Some rest => Some (stored ++ rest)
        | None => None
        end in
      if selector =? 0 then
        if source >=? end_of_source then Some []
        else
          body (load32 mem source)
            (_mm256_loadu_si256 mem (source + 4))
            (_mm256_loadu_si256 mem (source + 36))
            (source + 68)
      else body selector payload1 payload2 source
  end.

(** [decode(decoded, integers_to_decode, source, source_length)]: the integers
    written to [decoded].  The source never reads [integers_to_decode]: it
    decodes whole codewords until the source is used up. A codeword takes at
    most 33 rounds of the loop. *)
Definition decode (integers_to_decode : Z) (source_as_void : list Z)
    (source_length : Z) : option (list Z) :=
  decode_loop (S (33 * Z.to_nat (source_length / 68 + 1))) 0
    (repeat 0 8) (repeat 0 8) source_as_void 0 source_length.

(** The widths the decoder reads off a selector word: the selector's part
    of the loop of decode ([width = find_first_set_bit(selector)], ...,
    [selector >>= width], until the selector is 0). *)
Fixpoint width_extraction (fuel : nat) (selector : Z) : list Z :=
  match fuel with
  | O => []
  | S fuel' =>
      if selector =? 0 then []
      else
        let width := uint32_t (find_first_set_bit selector) in
        width :: width_extraction fuel' (Z.shiftr selector width)
  end.

(** A selector has 32 bits and every width is at least 1. *)
Definition selector_widths (selector : Z) : list Z :=
  width_extraction 32 selector.

End compress_integer_elias_gamma_simd_vb.


(** ** Text output *)

(** [stream << n] for an unsigned integer: its decimal digits. *)
Definition decimal (n : Z) : string :=
  DecimalString.NilZero.string_of_uint (N.to_uint (Z.to_N n)).

(** ** dynamic_array.h (not among the sources) *)
Module dynamic_array.

(** Modelled from the spec: [dynamic_array<T>] (dynamic_array.h is missing):
    an "append-only sequence" with [push_back(x)], a forward iterator that
    "hides chunk boundaries", and [back()] that "returns the last element".
    The array is the list of its elements in order of insertion; an iterator
    is an index into it ([begin] is 0 and [end] is the length); [back] of an
    empty array has no element to return. *)
Definition push_back (a : list Z) (x : Z) : list Z := a ++ [x].

(** Modelled from the spec: [back()] "returns the last element"; an empty
    array (dynamic_array.h is missing) has none. *)
Definition back (a : list Z) : option Z :=
  match a with
  | [] => None
  | _ => Some (last a 0)
  end.

(** Modelled from the spec: assignment through the reference returned by
    [back()] (dynamic_array.h is missing). *)
Definition set_back (a : list Z) (x : Z) : list Z := removelast a ++ [x].

(** Modelled from the spec: the forward iterator of dynamic_array.h (which
    is missing) as an index, [begin()] being the first element. *)
Definition begin_ (a : list Z) : nat := 0%nat.

(** Modelled from the spec: [end()] of the same iterator, one past the last
    element. *)
Definition end_ (a : list Z) : nat := length a.

End dynamic_array.

(** ** index_postings.h *)
Module index_postings.

Record index_postings : Type := {
  highest_document : Z;
  highest_position : Z;
  document_ids : list Z;       (* dynamic_array<uint32_t> *)
  term_frequencies : list Z;   (* dynamic_array<uint16_t> *)
  positions : list Z           (* dynamic_array<uint32_t> *)
}.

(** The constructor [index_postings(allocator &memory_pool)]. *)
Definition new : index_postings :=
  {| highest_document := 0;
     highest_position := 0;
     document_ids := [];
     term_frequencies := [];
     positions := [] |}.

(** [push_back(document_id, position)].  [None]: the call is undefined
    ([term_frequencies.back()] of an empty array). *)
Definition push_back (document_id position : Z) (p : index_postings)
  : option index_postings :=
  if document_id =? highest_document p then
    match dynamic_array.back (term_frequencies p) with
    | None => None
    | Some frequency =>
        let term_frequencies' :=
          if frequency <=? 0xFFFE
          then dynamic_array.set_back (term_frequencies p) (uint16_t (frequency + 1))
          else term_frequencies p in
        Some {| highest_document := highest_document p;
                highest_position := position;
                document_ids := document_ids p;
                term_frequencies := term_frequencies';
                positions := dynamic_array.push_back (positions p) (uint32_t position) |}
    end
  else
    Some {| highest_document := document_id;
            highest_position := position;
            document_ids := dynamic_array.push_back (document_ids p) (uint32_t document_id);
            term_frequencies := dynamic_array.push_back (term_frequencies p) 1;
            positions := dynamic_array.push_back (positions p) (uint32_t position) |}.

(** A sequence of [push_back] calls, in order. *)
Fixpoint push_all (postings : list (Z * Z)) (p : index_postings)
  : option index_postings :=
  match postings with
  | [] => Some p
  | (document_id, position) :: rest =>
      match push_back document_id position p with
      | Some p' => push_all rest p'
      | None => None
      end
  end.

(** [index_postings::iterator]. *)
Record iterator : Type := {
  document : nat;
  frequency : nat;
  position : nat;
  frequency_end : nat;
  frequencies_remaining : Z   (* uint32_t *)
}.

Inductive where_ : Type := START | END.

Definition iterator_new (parent : index_postings) (start : where_) : iterator :=
  let frequency :=
    match start with
    | START => dynamic_array.begin_ (term_frequencies parent)
    | END => dynamic_array.end_ (term_frequencies parent)
    end in
  {| document :=
       match start with
       | START => dynamic_array.begin_ (document_ids parent)
       | END => dynamic_array.end_ (document_ids parent)
       end;
     frequency := frequency;
     position :=
       match start with
       | START => dynamic_array.begin_ (positions parent)
       | END => dynamic_array.end_ (positions parent)
       end;
     frequency_end := dynamic_array.end_ (term_frequencies parent);
     frequencies_remaining :=
       if Nat.eqb frequency (dynamic_array.end_ (term_frequencies parent)) then 0
       else nth frequency (term_frequencies parent) 0 |}.

Definition begin_ (p : index_postings) : iterator := iterator_new p START.
Definition end_ (p : index_postings) : iterator := iterator_new p END.

(** [operator!=]: only the position iterators are compared. *)
Definition iterator_ne (this other : iterator) : bool :=
  negb (Nat.eqb (position other) (position this)).

(** [operator*]: the posting (docid, term frequency, position). *)
Definition iterator_deref (parent : index_postings) (this : iterator) : Z * Z * Z :=
  (nth (document this) (document_ids parent) 0,
   nth (frequency this) (term_frequencies parent) 0,
   nth (position this) (positions parent) 0).

(** [operator++]. *)
Definition iterator_next (parent : index_postings) (this : iterator) : iterator :=
  let frequencies_remaining := uint32_t (frequencies_remaining this - 1) in
  if frequencies_remaining <=? 0 then
    let frequency := S (frequency this) in
    {| document := S (document this);
       frequency := frequency;
       position := S (position this);
       frequency_end := frequency_end this;
       frequencies_remaining :=
         if Nat.eqb frequency (frequency_end this) then 0
         else nth frequency (term_frequencies parent) 0 |}
  else
    {| document := document this;
       frequency := frequency this;
       position := S (position this);
       frequency_end := frequency_end this;
       frequencies_remaining := frequencies_remaining |}.

Definition uint32_max : Z := 2 ^ 32 - 1.

(** The range-for loop of text_render, from iterator [it] on. *)
Fixpoint text_render_loop (fuel : nat) (parent : index_postings) (it : iterator)
    (previous_document_id : Z) (stream : string) : option string :=
  match fuel with
  | O => None
  | S fuel' =>
      if iterator_ne it (end_ parent) then
        let '(docid, tf, pos) := iterator_deref parent it in
        if negb (docid =? previous_document_id) then
          let stream :=
            if negb (previous_document_id =? uint32_max)
            then (stream ++ ">")%string else stream in
          let stream :=
            (stream ++ "<" ++ decimal docid ++ "," ++ decimal tf ++ ","
               ++ decimal pos)%string in
          text_render_loop fuel' parent (iterator_next parent it) docid stream
        else
          text_render_loop fuel' parent (iterator_next parent it)
            previous_document_id (stream ++ "," ++ decimal pos)%string
      else Some (stream ++ ">")%string
  end.

(** [text_render(stream)]: what is appended to an empty stream.  The loop
    advances the position iterator once per round, so it makes one round per
    stored position. *)
Definition text_render (p : index_postings) : option string :=
  text_render_loop (S (length (positions p))) p (begin_ p) uint32_max "".

End index_postings.

(** ** pointer_box.h *)
Module pointer_box.

(** A pointer is an address; [memory] gives the value stored at an address
    ([POINTER] is [int], as in the unit test). *)
Record pointer_box : Type := { element : Z }.

Section comparisons.
Variable memory : Z -> Z.

Definition deref (b : pointer_box) : Z := memory (element b).

Definition compare (this to : pointer_box) : Z :=
  if deref this <? deref to then -1
  else if deref this >? deref to then 1
  else if element this <? element to then -1
  else if element this >? element to then 1
  else 0.

Definition lt (this to : pointer_box) : bool :=
  (deref this <? deref to)
  || ((deref this =? deref to) && (element this <? element to)).

Definition le (this to : pointer_box) : bool :=
  (deref this <=? deref to)
  || ((deref this =? deref to) && (element this <=? element to)).

Definition gt (this to : pointer_box) : bool :=
  (deref this >? deref to)
  || ((deref this =? deref to) && (element this >? element to)).

Definition ge (this to : pointer_box) : bool :=
  (deref this >=? deref to)
  || ((deref this =? deref to) && (element this >=? element to)).

Definition eq (this to : pointer_box) : bool :=
  (element this =? element to) && (deref this =? deref to).

Definition ne (this to : pointer_box) : bool :=
  negb (element this =? element to) || negb (deref this =? deref to).

End comparisons.

(** An [int array[]] placed at address [base]: element [i] lives at
    [base + 4 * i]. *)
Definition array_memory (base : Z) (array : list Z) : Z -> Z :=
  fun address => at_ array ((address - base) / 4).

Definition address_of (base : Z) (index : Z) : pointer_box :=
  {| element := base + 4 * index |}.

End pointer_box.

(** ** index_postings_impact.h (not among the sources) *)
Module index_postings_impact.

(** Modelled from the spec: [index_postings_impact] (its header is missing):
    impacts are "of type u8 in [smallest_impact, largest_impact]
    (conventionally [1, 255])". *)
Definition smallest_impact : Z := 1.

(** Modelled from the spec: the largest impact of the missing
    index_postings_impact.h, 255. *)
Definition largest_impact : Z := 255.

(** Modelled from the spec: conversion to [impact_type] of the missing
    index_postings_impact.h, "type u8". *)
Definition impact_type (x : Z) : Z := uint8_t x.

(** Modelled from the spec: the largest value of that type. *)
Definition impact_type_max : Z := 2 ^ 8 - 1.

End index_postings_impact.

(** ** quantize.h *)
Module quantize.

(** [std::numeric_limits<double>::min()] (the smallest positive normal
    double) and [std::numeric_limits<double>::max()]. *)
Definition double_min : float := 0x1p-1022%float.
Definition double_max : float := 0x1.fffffffffffffp1023%float.

(** The integer part of a double (rounding towards zero); infinities and
    NaN have none. *)
Definition truncate (x : float) : option Z :=
  match Prim2SF x with
  | S754_zero _ => Some 0
  | S754_finite negative m e =>
      let magnitude := Z.shiftl (Zpos m) e in
      Some (if negative then - magnitude else magnitude)
  | S754_infinity _ => None
  | S754_nan => None
  end.

(** [static_cast<index_postings_impact::impact_type>(x)]: the conversion
    truncates, and is undefined ([None]) when the truncated value cannot be
    represented in the destination type. *)
Definition static_cast_impact_type (x : float) : option Z :=
  match truncate x with
  | Some t =>
      if (0 <=? t) && (t <=? index_postings_impact.impact_type_max)
      then Some t else None
  | None => None
  end.

(** [static constexpr double impact_range = largest_impact - smallest_impact]. *)
Definition impact_range : float :=
  PrimFloat.of_uint63
    (Uint63.of_Z
       (index_postings_impact.largest_impact - index_postings_impact.smallest_impact)).

Section with_ranker.

(** The ranker is a template parameter: an object with three member
    functions, two of which update it. *)
Variable RANKER : Type.
Variable compute_idf_component : Z -> Z -> RANKER -> RANKER.
Variable compute_tf_component : Z -> RANKER -> RANKER.
Variable compute_score : Z -> Z -> RANKER -> float.

Record quantize : Type := {
  largest_rsv : float;
  smallest_rsv : float;
  ranker : RANKER;
  documents_in_collection : Z
}.

(** The constructor [quantize(documents, ranker)]. *)
Definition new (documents : Z) (ranker : RANKER) : quantize :=
  {| largest_rsv := double_min;
     smallest_rsv := double_max;
     ranker := ranker;
     documents_in_collection := uint32_t documents |}.

(** The loop of the first [operator()], over the postings
    [current .. document_frequency - 1] listed in [todo]. *)
Fixpoint observe_loop (todo : list Z) (document_ids term_frequencies : list Z)
    (q : quantize) : quantize :=
  match todo with
  | [] => q
  | current :: todo' =>
      let ranker := compute_tf_component (at_ term_frequencies current) (ranker q) in
      let score :=
        compute_score (uint32_t (at_ document_ids current - 1))
          (at_ term_frequencies current) ranker in
      let smallest_rsv :=
        if (score <? smallest_rsv q)%float then score else smallest_rsv q in
      let largest_rsv :=
        if (largest_rsv q <? score)%float then score else largest_rsv q in
      observe_loop todo' document_ids term_frequencies
        {| largest_rsv := largest_rsv;
           smallest_rsv := smallest_rsv;
           ranker := ranker;
           documents_in_collection := documents_in_collection q |}
  end.

(** Pass A: [operator()(term, postings, document_frequency, document_ids,
    term_frequencies)]. *)
Definition observe (document_frequency : Z) (document_ids term_frequencies : list Z)
    (q : quantize) : quantize :=
  let ranker :=
    compute_idf_component document_frequency (documents_in_collection q) (ranker q) in
  observe_loop (indices document_frequency) document_ids term_frequencies
    {| largest_rsv := largest_rsv q;
       smallest_rsv := smallest_rsv q;
       ranker := ranker;
       documents_in_collection := documents_in_collection q |}.

(** The impact of one score, as pass B computes it. *)
Definition quantized_impact (q : quantize) (score : float) : option Z :=
  match static_cast_impact_type
          ((score - smallest_rsv q) / (largest_rsv q - smallest_rsv q)
           * impact_range)%float with
  | Some impact =>
      Some (index_postings_impact.impact_type
              (impact + index_postings_impact.smallest_impact))
  | None => None
  end.

(** The loop of the quantising [operator()]: each term frequency is
    overwritten by its impact. *)
Fixpoint emit_loop (todo : list Z) (document_ids term_frequencies : list Z)
    (q : quantize) (ranker : RANKER) : option (RANKER * list Z) :=
  match todo with
  | [] => Some (ranker, term_frequencies)
  | current :: todo' =>
      let ranker := compute_tf_component (at_ term_frequencies current) ranker in
      let score :=
        compute_score (uint32_t (at_ document_ids current - 1))
          (at_ term_frequencies current) ranker in
      match quantized_impact q score with
      | Some impact =>
          emit_loop todo' document_ids (store term_frequencies current impact) q ranker
      | None => None
      end
  end.

(** Pass B: [operator()(writer, term, postings, document_frequency,
    document_ids, term_frequencies)]; the result is the quantizer afterwards
    and the impacts handed to [writer] in place of the term frequencies.
    [None]: the conversion of a score to an impact is undefined. *)
Definition emit (document_frequency : Z) (document_ids term_frequencies : list Z)
    (q : quantize) : option (quantize * list Z) :=
  let ranker :=
    compute_idf_component document_frequency (documents_in_collection q) (ranker q) in
  match emit_loop (indices document_frequency) document_ids term_frequencies q ranker with
  | Some (ranker, impacts) =>
      Some ({| largest_rsv := largest_rsv q;
               smallest_rsv := smallest_rsv q;
               ranker := ranker;
               documents_in_collection := documents_in_collection q |},
            impacts)
  | None => None
  end.

(** [get_bounds(smallest, largest)]. *)
Definition get_bounds (q : quantize) : float * float :=
  (smallest_rsv q, largest_rsv q).

End with_ranker.

End quantize.

(** ** JASSv1_to_human.cpp *)
Module printer.

Record printer : Type := { impact : Z (* uint64_t *) }.

Definition set_score (impact : Z) (this : printer) : printer :=
  {| impact := impact |}.

(** One [<docid,impact>] pair as written to [std::cout]. *)
Definition pair (document impact : Z) : string :=
  ("<" ++ decimal document ++ "," ++ decimal impact ++ ">")%string.

(** [push_back(__m256i document_ids)]: the 8 lanes are stored to [each] and
    scanned in order; the result is [std::cout] afterwards. *)
Definition push_back (document_ids : list Z) (this : printer) (cout : string)
  : string :=
  let each := document_ids in
  fold_left
    (fun cout which =>
       if negb (at_ each which =? 0)
       then (cout ++ pair (at_ each which) (impact this))%string
       else cout)
    (indices 8) cout.

Definition add_rsv (document impact : Z) (this : printer) (cout : string) : string :=
  (cout ++ pair document impact)%string.

End printer.

(** * Properties *)

(** ** The postings accumulator *)
Section postings_properties.
Import index_postings.

(** The same document pushed once more, at the next position. *)
Definition push_again (document_id : Z) (state : option index_postings)
  : option index_postings :=
  match state with
  | Some p => push_back document_id (highest_position p + 1) p
  | None => None
  end.

(** [push_back] called [n] times with the same document id on [p]. *)
Definition push_times (document_id : Z) (n : positive) (p : index_postings)
  : option index_postings :=
  Pos.iter (push_again document_id) (Some p) n.

Lemma back_app (a : list Z) (x : Z) :
  dynamic_array.back (a ++ [x]) = Some x.
Proof.
  unfold dynamic_array.back.
  destruct (a ++ [x]) eqn:E.
  - destruct a; discriminate.
  - rewrite <- E, last_last. reflexivity.
Qed.

Lemma set_back_app (a : list Z) (x y : Z) :
  dynamic_array.set_back (a ++ [x]) y = a ++ [y].
Proof. unfold dynamic_array.set_back. rewrite removelast_last. reflexivity. Qed.

(** One more occurrence of the current document: the last term frequency
    goes up by one unless it is already 0xFFFF. *)
Lemma push_back_repeat (p : index_postings) (tfs : list Z) (tf position : Z) :
  term_frequencies p = tfs ++ [tf] -> 0 <= tf <= 0xFFFF ->
  exists p',
    push_back (highest_document p) position p = Some p'
    /\ highest_document p' = highest_document p
    /\ document_ids p' = document_ids p
    /\ term_frequencies p' = tfs ++ [Z.min (tf + 1) 0xFFFF].
Proof.
  intros Htf Hrange. unfold push_back.
  rewrite Z.eqb_refl, Htf, back_app.
  eexists. split; [reflexivity|]. cbn [highest_document document_ids term_frequencies].
  repeat split.
  destruct (Z.leb_spec tf 0xFFFE).
  - rewrite set_back_app. unfold uint16_t.
    rewrite Z.mod_small by lia. rewrite Z.min_l by lia. reflexivity.
  - rewrite Z.min_r by lia. replace tf with 0xFFFF by lia. reflexivity.
Qed.

Lemma iter_push_again (n : nat) :
  forall (p : index_postings) (tfs : list Z) (tf : Z),
    term_frequencies p = tfs ++ [tf] -> 0 <= tf <= 0xFFFF ->
    exists p',
      nat_rect _ (Some p) (fun _ => push_again (highest_document p)) n = Some p'
      /\ highest_document p' = highest_document p
      /\ document_ids p' = document_ids p
      /\ term_frequencies p' = tfs ++ [Z.min (tf + Z.of_nat n) 0xFFFF].
Proof.
  induction n as [|n IH]; intros p tfs tf Htf Hrange.
  - exists p. cbn [nat_rect]. repeat split; try reflexivity.
    rewrite Htf, Z.add_0_r, Z.min_l by lia. reflexivity.
  - destruct (IH p tfs tf Htf Hrange) as (p1 & Hrun & Hdoc & Hids & Htfs).
    cbn [nat_rect]. rewrite Hrun. cbn [push_again]. rewrite <- Hdoc.
    destruct (push_back_repeat p1 tfs _ (highest_position p1 + 1) Htfs)
      as (p2 & Hpush & Hdoc2 & Hids2 & Htfs2); [lia|].
    exists p2. rewrite Hpush. repeat split; try congruence.
    rewrite Htfs2. do 2 f_equal. lia.
Qed.

(** A document pushed [n] times onto a fresh accumulator: one entry, whose
    term frequency is [n] capped at 0xFFFF. *)
Lemma push_times_new (document_id : Z) (n : positive) :
  document_id <> 0 ->
  exists p,
    push_times document_id n new = Some p
    /\ document_ids p = [uint32_t document_id]
    /\ term_frequencies p = [Z.min (Zpos n) 0xFFFF].
Proof.
  intros Hd. unfold push_times.
  rewrite Pos2Nat.inj_iter.
  destruct (Pos2Nat.is_succ n) as [k Hk]. rewrite Hk.
  rewrite <- Nat.add_1_r.
  assert (Hsplit : forall (A : Type) (f : A -> A) (x : A) (a b : nat),
             nat_rect (fun _ => A) x (fun _ => f) (a + b)%nat
             = nat_rect (fun _ => A) (nat_rect (fun _ => A) x (fun _ => f) b)
                 (fun _ => f) a).
  { intros A f x a b. induction a; cbn; congruence. }
  rewrite Hsplit. cbn [nat_rect push_again].
  unfold push_back at 1. cbn [highest_document new].
  destruct (Z.eqb_spec document_id 0) as [|_]; [contradiction|].
  cbn [highest_position term_frequencies document_ids positions].
  set (p1 := Build_index_postings _ _ _ _ _).
  destruct (iter_push_again k p1 [] 1) as (p' & Hrun & _ & Hids & Htfs);
    [reflexivity | lia |].
  exists p'. change (highest_document p1) with document_id in Hrun.
  split; [exact Hrun|]. split; [exact Hids|].
  rewrite Htfs. cbn [app]. do 2 f_equal. lia.
Qed.

Lemma push_times_repeat (p : index_postings) (tfs : list Z) (tf : Z) (n : positive) :
  term_frequencies p = tfs ++ [tf] -> 0 <= tf <= 0xFFFF ->
  exists p',
    push_times (highest_document p) n p = Some p'
    /\ term_frequencies p' = tfs ++ [Z.min (tf + Zpos n) 0xFFFF].
Proof.
  intros Htf Hrange. unfold push_times. rewrite Pos2Nat.inj_iter.
  destruct (iter_push_again (Pos.to_nat n) p tfs tf Htf Hrange)
    as (p' & Hrun & _ & _ & Htfs).
  exists p'. split; [exact Hrun|].
  rewrite Htfs, positive_nat_Z. reflexivity.
Qed.

(** C2 (as amended): the term frequency saturates at 0xFFFF, the largest
    16-bit value, not at 0xFFFE.  Pushing the same document id [n >= 1] times
    onto a fresh accumulator leaves that document's term frequency equal to
    [n] capped at 0xFFFF (so 0xFFFF after 1,000,000 pushes); and in any
    accumulator, pushing the current document [n] more times adds [n] to its
    term frequency, capped at 0xFFFF. *)
Theorem tf_saturates_at_FFFF (document_id : Z) (n : positive) :
  (document_id <> 0 ->
   exists p,
     push_times document_id n new = Some p
     /\ document_ids p = [uint32_t document_id]
     /\ term_frequencies p = [Z.min (Zpos n) 0xFFFF])
  /\ (forall (p : index_postings) (tfs : list Z) (tf : Z),
        term_frequencies p = tfs ++ [tf] -> 0 <= tf <= 0xFFFF ->
        exists p',
          push_times (highest_document p) n p = Some p'
          /\ term_frequencies p' = tfs ++ [Z.min (tf + Zpos n) 0xFFFF]).
Proof.
  split.
  - apply push_times_new.
  - intros p tfs tf. apply push_times_repeat.
Qed.

Lemma tf_saturates_at_FFFF_witness :
  exists p,
    push_times 1 1000000 new = Some p
    /\ document_ids p = [1]
    /\ term_frequencies p = [0xFFFF].
Proof.
  destruct (tf_saturates_at_FFFF 1 1000000) as [Hnew _].
  apply Hnew. discriminate.
Defined.

(** C2 as stated fails: after 1,000,000 pushes of document 1 the stored term
    frequency is 0xFFFF, not 0xFFFE. *)
Lemma tf_after_million_pushes_is_not_FFFE :
  ~ (forall p, push_times 1 1000000 new = Some p -> term_frequencies p = [0xFFFE]).
Proof.
  intros H.
  destruct (push_times_new 1 1000000) as (p & Hrun & _ & Htfs); [discriminate|].
  specialize (H p Hrun). rewrite Htfs in H. discriminate H.
Qed.

(** C7: pushing (1,100), (1,101), (2,102), (2,103) in that order and
    rendering gives exactly "<1,2,100,101><2,2,102,103>". *)
Theorem text_render_unittest :
  exists p,
    push_all [(1, 100); (1, 101); (2, 102); (2, 103)] new = Some p
    /\ text_render p = Some "<1,2,100,101><2,2,102,103>"%string.
Proof. eexists. split; [reflexivity | vm_compute; reflexivity]. Qed.

(** C10: push_back appends a new entry to document_ids, with term frequency
    1, exactly when document_id differs from highest_document; that field is
    0 in a freshly constructed accumulator, so push_back(0, p) on it takes the
    repeated-document branch and is undefined (back() of an empty array),
    while any other document id is fine. *)
Theorem push_back_new_entry_iff_new_document
    (p : index_postings) (document_id position : Z) :
  (document_id <> highest_document p ->
   exists p',
     push_back document_id position p = Some p'
     /\ document_ids p' = document_ids p ++ [uint32_t document_id]
     /\ term_frequencies p' = term_frequencies p ++ [1]
     /\ highest_document p' = document_id)
  /\ (document_id = highest_document p ->
      forall p',
        push_back document_id position p = Some p' ->
        document_ids p' = document_ids p
        /\ length (term_frequencies p') = length (term_frequencies p))
  /\ highest_document new = 0
  /\ push_back 0 position new = None
  /\ (document_id <> 0 -> push_back document_id position new <> None).
Proof.
  split; [|split; [|split; [|split]]].
  - intros Hne. unfold push_back.
    destruct (Z.eqb_spec document_id (highest_document p)); [contradiction|].
    eexists. repeat split.
  - intros Heq p'. unfold push_back. rewrite Heq, Z.eqb_refl.
    destruct (term_frequencies p) as [|t ts _] using rev_ind; [discriminate|].
    rewrite back_app. intros [= <-]. cbn [document_ids term_frequencies].
    split; [reflexivity|].
    destruct (_ <=? _); [rewrite set_back_app|]; rewrite !length_app; reflexivity.
  - reflexivity.
  - reflexivity.
  - intros Hne. unfold push_back. cbn [highest_document new].
    destruct (Z.eqb_spec document_id 0); [contradiction | discriminate].
Qed.

Lemma push_back_new_entry_iff_new_document_witness :
  (exists p',
      push_back 1 100 new = Some p'
      /\ document_ids p' = [1] /\ term_frequencies p' = [1]
      /\ highest_document p' = 1)
  /\ push_back 0 100 new = None.
Proof.
  destruct (push_back_new_entry_iff_new_document new 1 100)
    as (Hnew & _ & _ & Hzero & _).
  split; [apply Hnew; discriminate | exact Hzero].
Defined.

End postings_properties.

(** ** The pointer box *)
Section pointer_box_properties.
Import pointer_box.

Lemma deref_array (base : Z) (array : list Z) (index : Z) :
  deref (array_memory base array) (address_of base index) = at_ array index.
Proof.
  unfold deref, array_memory, address_of. cbn [element].
  replace (base + 4 * index - base) with (index * 4) by lia.
  rewrite Z.div_mul by discriminate. reflexivity.
Qed.

(** Case analysis on every integer comparison of the goal. *)
Ltac order_cases :=
  rewrite ?Z.gtb_ltb;
  repeat match goal with
         | |- context [?x <? ?y] => destruct (Z.ltb_spec x y)
         | |- context [?x =? ?y] => destruct (Z.eqb_spec x y)
         end;
  cbn [orb andb]; first [lia | reflexivity | discriminate].

(** The strict comparisons order boxes by the value pointed to and break
    ties by address.  For [int array[] = {6, 3, 6}] (at any address) with
    [a = &array[0]], [b = &array[1]], [c = &array[2]] the strict order is
    b < a < c, and [compare] is negative, zero or positive accordingly; in
    general [operator<] is the lexicographic order on (pointee, address) and
    the sign of [compare] agrees with it. *)
Theorem pointer_box_tie_break (base : Z) :
  let memory := array_memory base [6; 3; 6] in
  let a := address_of base 0 in
  let b := address_of base 1 in
  let c := address_of base 2 in
  (lt memory b a = true /\ lt memory a c = true /\ lt memory b c = true
   /\ lt memory a b = false /\ lt memory c a = false
   /\ gt memory a b = true /\ gt memory c a = true)
  /\ (compare memory b a < 0 /\ compare memory a c < 0 /\ compare memory b c < 0
      /\ compare memory a b > 0 /\ compare memory c a > 0
      /\ compare memory a a = 0)
  /\ (forall (m : Z -> Z) (x y : pointer_box),
        (lt m x y = true <->
         deref m x < deref m y
         \/ (deref m x = deref m y /\ element x < element y))
        /\ (compare m x y < 0 <-> lt m x y = true)
        /\ (compare m x y = 0 <-> x = y)
        /\ (compare m x y > 0 <-> lt m y x = true)).
Proof.
  intros memory a b c. split; [|split].
  - unfold lt, gt, memory, a, b, c. rewrite !deref_array.
    change (at_ [6; 3; 6] 0) with 6. change (at_ [6; 3; 6] 1) with 3.
    change (at_ [6; 3; 6] 2) with 6. unfold address_of. cbn [element].
    repeat split; order_cases.
  - unfold compare, memory, a, b, c. rewrite !deref_array.
    change (at_ [6; 3; 6] 0) with 6. change (at_ [6; 3; 6] 1) with 3.
    change (at_ [6; 3; 6] 2) with 6. unfold address_of. cbn [element].
    repeat split; order_cases.
  - intros m x y. unfold lt, compare. destruct x as [ex], y as [ey]. cbn [element].
    set (vx := deref m {| element := ex |}). set (vy := deref m {| element := ey |}).
    assert (Hsame : ex = ey -> vx = vy) by (intros ->; reflexivity).
    rewrite !Z.gtb_ltb.
    destruct (Z.ltb_spec vx vy), (Z.ltb_spec vy vx), (Z.eqb_spec vx vy),
      (Z.eqb_spec vy vx), (Z.ltb_spec ex ey), (Z.ltb_spec ey ex);
      cbn [orb andb]; try lia;
      repeat split; intros; try lia; try discriminate; try reflexivity;
      try (f_equal; lia);
      try match goal with H : Build_pointer_box _ = Build_pointer_box _ |- _ =>
            injection H; intros; lia end.
Qed.

(** C8 (the code at the failing input): for [int array[] = {6, 3, 6}] (at
    any address) with [a = &array[0]] and [c = &array[2]] the pointees tie and
    [a] has the lower address, so the order with ties broken by address puts
    [a] strictly before [c]: [operator<], [operator>] and [compare] say so.
    [operator<=] and [operator>=] do not break the tie: they test the pointees
    with [<=] and [>=] before they look at the addresses, so [c <= a] and
    [a >= c] hold as well, against that order. *)
Theorem le_and_ge_do_not_break_the_tie (base : Z) :
  let memory := array_memory base [6; 3; 6] in
  let a := address_of base 0 in
  let c := address_of base 2 in
  (lt memory a c = true /\ lt memory c a = false
   /\ gt memory c a = true /\ gt memory a c = false
   /\ compare memory a c = -1 /\ compare memory c a = 1)
  /\ (le memory c a = true /\ ge memory a c = true)
  /\ (le memory a c = true /\ ge memory c a = true)
  /\ (eq memory a c = false /\ ne memory a c = true).
Proof.
  intros memory a c.
  unfold lt, gt, le, ge, eq, ne, compare, memory, a, c. rewrite !deref_array.
  change (at_ [6; 3; 6] 0) with 6. change (at_ [6; 3; 6] 2) with 6.
  unfold address_of. cbn [element].
  repeat split; order_cases.
Qed.

End pointer_box_properties.

(** ** The printing sink *)
Section printer_properties.
Import printer.

Lemma string_app_assoc (a b c : string) :
  ((a ++ b) ++ c = a ++ (b ++ c))%string.
Proof. induction a as [|ch a IH]; cbn; [reflexivity | now rewrite IH]. Qed.

Lemma string_app_nil_r (a : string) : (a ++ "" = a)%string.
Proof. induction a as [|ch a IH]; cbn; [reflexivity | now rewrite IH]. Qed.

Lemma map_at_indices (l : list Z) :
  map (at_ l) (indices (Z.of_nat (length l))) = l.
Proof.
  unfold indices. rewrite Nat2Z.id, map_map.
  apply nth_ext with (d := 0) (d' := 0).
  - now rewrite length_map, length_seq.
  - intros n Hn. rewrite length_map, length_seq in Hn.
    rewrite (nth_indep _ 0 (at_ l (Z.of_nat 0))) by now rewrite length_map, length_seq.
    rewrite (map_nth (fun x => at_ l (Z.of_nat x))), seq_nth by exact Hn.
    unfold at_. now rewrite Nat2Z.id.
Qed.

(** The pairs printed for a group of lanes: one per nonzero docid, in lane
    order. *)
Definition emitted (document_ids : list Z) (impact : Z) : list (Z * Z) :=
  map (fun document => (document, impact))
    (filter (fun document => negb (document =? 0)) document_ids).

Definition render (pairs : list (Z * Z)) : string :=
  String.concat "" (map (fun p => pair (fst p) (snd p)) pairs).

Lemma concat_cons (x : string) (l : list string) :
  String.concat "" (x :: l) = (x ++ String.concat "" l)%string.
Proof. destruct l; cbn; [now rewrite string_app_nil_r | reflexivity]. Qed.

Lemma scan_lanes (impact : Z) (each : list Z) :
  forall cout : string,
    fold_left
      (fun cout document =>
         if negb (document =? 0) then (cout ++ pair document impact)%string else cout)
      each cout
    = (cout ++ render (emitted each impact))%string.
Proof.
  unfold render, emitted.
  induction each as [|d each IH]; intros cout; cbn [fold_left filter map].
  - cbn. now rewrite string_app_nil_r.
  - rewrite IH. destruct (negb (d =? 0)); [|reflexivity].
    cbn [map fst snd]. now rewrite concat_cons, string_app_assoc.
Qed.

(** C9: once set_score has fixed the impact, the vectorised push_back
    prints exactly the lanes that hold a nonzero docid, as <doc,impact>
    pairs in lane order; lanes holding docid 0 print nothing. *)
Theorem push_back_filters_zero_lanes
    (this : printer) (impact : Z) (document_ids : list Z) (cout : string) :
  length document_ids = 8%nat ->
  push_back document_ids (set_score impact this) cout
  = (cout ++ render (emitted document_ids impact))%string
  /\ (forall document i, In (document, i) (emitted document_ids impact) <->
                         In document document_ids /\ document <> 0 /\ i = impact).
Proof.
  intros Hlen. split.
  - unfold push_back, set_score. cbn [printer.impact].
    rewrite <- scan_lanes.
    pose proof (map_at_indices document_ids) as Hmap.
    rewrite Hlen in Hmap. change (Z.of_nat 8) with 8 in Hmap.
    match goal with
    | |- _ = fold_left ?F _ _ =>
        replace (fold_left F document_ids cout)
          with (fold_left F (map (at_ document_ids) (indices 8)) cout)
          by (rewrite Hmap; reflexivity)
    end.
    generalize (indices 8). intros l. revert cout.
    induction l as [|w l IH]; intros cout; [reflexivity|].
    cbn [fold_left map]. apply IH.
  - intros document i. unfold emitted. rewrite in_map_iff. split.
    + intros (d & [= <- <-] & Hin). apply filter_In in Hin as [Hin Hnz].
      repeat split; [exact Hin|]. intros ->. discriminate Hnz.
    + intros (Hin & Hnz & ->). exists document. split; [reflexivity|].
      apply filter_In. split; [exact Hin|].
      destruct (Z.eqb_spec document 0); [contradiction | reflexivity].
Qed.

Lemma push_back_filters_zero_lanes_witness :
  push_back [5; 0; 7; 0; 0; 0; 0; 12] (set_score 9 {| impact := 0 |}) ""
  = "<5,9><7,9><12,9>"%string.
Proof.
  apply (push_back_filters_zero_lanes {| impact := 0 |} 9 [5; 0; 7; 0; 0; 0; 0; 12] "").
  reflexivity.
Defined.

End printer_properties.

(** ** The quantizer *)
Section quantizer_properties.
Import quantize.

(** A ranker for the examples: a posting's score is its term frequency (as
    a double); the idf and tf components are not used. *)
Definition tf_idf_component (document_frequency documents : Z) (r : unit) : unit := r.
Definition tf_tf_component (term_frequency : Z) (r : unit) : unit := r.
Definition tf_score (document term_frequency : Z) (r : unit) : float :=
  PrimFloat.of_uint63 (Uint63.of_Z term_frequency).

Definition tf_observe := observe unit tf_idf_component tf_tf_component tf_score.
Definition tf_emit := emit unit tf_idf_component tf_tf_component tf_score.

(** With distinct scores both passes work: three postings with term
    frequencies 1, 2 and 5 get the bounds (1, 5) and the impacts 1, 64, 255. *)
Example quantize_three_postings :
  let q := tf_observe 3 [1; 2; 3] [1; 2; 5] (new unit 3 tt) in
  get_bounds unit q = (1%float, 5%float)
  /\ option_map snd (tf_emit 3 [1; 2; 3] [1; 2; 5] q) = Some [1; 64; 255].
Proof. split; vm_compute; reflexivity. Qed.

(** C3 (the code at the failing input): two postings that score the same
    (term frequency 3 in documents 1 and 2).  Pass A leaves
    smallest_rsv = largest_rsv = 3, so pass B divides by
    largest_rsv - smallest_rsv = 0: the quotient 0/0 is NaN and its conversion
    to an impact is undefined; no impact, and not smallest_impact, comes out. *)
Theorem quantize_equal_scores_divides_by_zero :
  let q := tf_observe 2 [1; 2] [3; 3] (new unit 2 tt) in
  let score := tf_score 0 3 tt in
  get_bounds unit q = (3%float, 3%float)
  /\ (largest_rsv unit q - smallest_rsv unit q)%float = 0%float
  /\ PrimFloat.is_nan
       ((score - smallest_rsv unit q) / (largest_rsv unit q - smallest_rsv unit q))%float
     = true
  /\ quantized_impact unit q score = None
  /\ tf_emit 2 [1; 2] [3; 3] q = None.
Proof. repeat split; vm_compute; reflexivity. Qed.


(** *** Pass A in general: the order of doubles *)

Ltac compare_cases :=
  change (Pos.compare_cont Eq) with Pos.compare;
  repeat match goal with
         | |- context [Z.compare ?a ?b] => destruct (Z.compare_spec a b)
         | |- context [Pos.compare ?a ?b] => destruct (Pos.compare_spec a b)
         end;
  cbn; intros; subst; first [reflexivity | discriminate | lia | congruence].

Lemma SFleb_refl (x : spec_float) : x <> S754_nan -> SFleb x x = true.
Proof.
  unfold SFleb, SFcompare. destruct x as [s| s| |s m e]; try destruct s; compare_cases.
Qed.

Lemma SFleb_total (x y : spec_float) :
  x <> S754_nan -> y <> S754_nan -> SFltb x y = false -> SFleb y x = true.
Proof.
  unfold SFleb, SFltb, SFcompare.
  destruct x as [s1| s1| |s1 m1 e1], y as [s2| s2| |s2 m2 e2];
    try destruct s1; try destruct s2; compare_cases.
Qed.

Lemma SFleb_trans (x y z : spec_float) :
  SFleb x y = true -> SFleb y z = true -> SFleb x z = true.
Proof.
  unfold SFleb, SFcompare.
  destruct x as [s1| s1| |s1 m1 e1], y as [s2| s2| |s2 m2 e2], z as [s3| s3| |s3 m3 e3];
    try destruct s1; try destruct s2; try destruct s3; compare_cases.
Qed.

Lemma number_spec (x : float) : PrimFloat.is_nan x = false -> Prim2SF x <> S754_nan.
Proof.
  unfold PrimFloat.is_nan. rewrite FloatAxioms.eqb_spec. intros H E. rewrite E in H. discriminate H.
Qed.

(** One score observed: whatever the bounds were, they are ordered
    afterwards. *)
Lemma observe_one_score (smallest largest score : float) :
  PrimFloat.is_nan smallest = false -> PrimFloat.is_nan largest = false ->
  PrimFloat.is_nan score = false ->
  let smallest' := if (score <? smallest)%float then score else smallest in
  let largest' := if (largest <? score)%float then score else largest in
  (smallest' <=? largest')%float = true
  /\ PrimFloat.is_nan smallest' = false /\ PrimFloat.is_nan largest' = false.
Proof.
  intros Hs Hl Hx. cbn zeta.
  pose proof (number_spec _ Hs). pose proof (number_spec _ Hl).
  pose proof (number_spec _ Hx).
  destruct (score <? smallest)%float eqn:E1, (largest <? score)%float eqn:E2;
    rewrite FloatAxioms.ltb_spec in E1, E2; rewrite FloatAxioms.leb_spec;
    repeat split; try assumption.
  - now apply SFleb_refl.
  - now apply SFleb_total.
  - now apply SFleb_total.
  - apply SFleb_trans with (y := Prim2SF score); now apply SFleb_total.
Qed.

Section pass_A.
Variable RANKER : Type.
Variable compute_idf_component : Z -> Z -> RANKER -> RANKER.
Variable compute_tf_component : Z -> RANKER -> RANKER.
Variable compute_score : Z -> Z -> RANKER -> float.
Hypothesis score_is_a_number :
  forall document term_frequency r,
    PrimFloat.is_nan (compute_score document term_frequency r) = false.

Let quantizer := quantize RANKER.

Definition ordered (q : quantizer) : Prop :=
  (smallest_rsv RANKER q <=? largest_rsv RANKER q)%float = true.

Definition numbers (q : quantizer) : Prop :=
  PrimFloat.is_nan (smallest_rsv RANKER q) = false
  /\ PrimFloat.is_nan (largest_rsv RANKER q) = false.

Lemma observe_loop_ordered (todo : list Z) (document_ids term_frequencies : list Z) :
  forall q : quantizer,
    numbers q -> ordered q \/ todo <> [] ->
    ordered (observe_loop RANKER compute_tf_component compute_score todo
               document_ids term_frequencies q).
Proof.
  induction todo as [|current todo IH]; intros q [Hs Hl] Hstart; cbn [observe_loop].
  - destruct Hstart as [H|H]; [exact H | contradiction].
  - destruct (observe_one_score (smallest_rsv RANKER q) (largest_rsv RANKER q)
                (compute_score
                   (uint32_t (at_ document_ids current - 1))
                   (at_ term_frequencies current)
                   (compute_tf_component (at_ term_frequencies current)
                      (ranker RANKER q)))
                Hs Hl (score_is_a_number _ _ _))
      as (Hord & Hs' & Hl').
    apply IH; [split; assumption | left; exact Hord].
Qed.

End pass_A.

(** Pass A over a postings list with at least one posting, for a ranker
    that never yields NaN, leaves smallest_rsv <= largest_rsv. *)
Theorem observe_orders_bounds
    (RANKER : Type) (compute_idf_component : Z -> Z -> RANKER -> RANKER)
    (compute_tf_component : Z -> RANKER -> RANKER)
    (compute_score : Z -> Z -> RANKER -> float)
    (documents : Z) (r : RANKER)
    (document_frequency : Z) (document_ids term_frequencies : list Z) :
  (forall document term_frequency r,
      PrimFloat.is_nan (compute_score document term_frequency r) = false) ->
  0 < document_frequency ->
  let q :=
    observe RANKER compute_idf_component compute_tf_component compute_score
      document_frequency document_ids term_frequencies (new RANKER documents r) in
  (fst (get_bounds RANKER q) <=? snd (get_bounds RANKER q))%float = true.
Proof.
  intros Hnumber Hdf q. unfold q, observe, get_bounds. cbn [fst snd].
  apply observe_loop_ordered; [exact Hnumber | split; reflexivity |].
  right. unfold indices.
  destruct (Z.to_nat document_frequency) eqn:E; [lia | discriminate].
Qed.

Lemma observe_orders_bounds_witness :
  let q := observe unit tf_idf_component tf_tf_component (fun _ _ _ => 3%float)
             2 [1; 2] [3; 3] (new unit 2 tt) in
  (fst (get_bounds unit q) <=? snd (get_bounds unit q))%float = true.
Proof.
  apply (observe_orders_bounds unit tf_idf_component tf_tf_component
           (fun _ _ _ => 3%float) 2 tt 2 [1; 2] [3; 3]).
  - intros. reflexivity.
  - lia.
Defined.

End quantizer_properties.

(** ** The SIMD Elias-gamma variable-byte codec *)
Section codec_properties.
Import compress_integer_elias_gamma_simd_vb.

Definition sumZ (l : list Z) : Z := fold_right Z.add 0 l.

Definition width_ok (w : Z) : Prop := 1 <= w <= 32.

(** *** Arrays *)

Lemma at_app_length (pre post : list Z) (x : Z) :
  at_ (pre ++ x :: post) (Z.of_nat (length pre)) = x.
Proof. unfold at_. rewrite Nat2Z.id. apply nth_middle. Qed.

Lemma at_app_l (pre post : list Z) (i : Z) :
  0 <= i < Z.of_nat (length pre) -> at_ (pre ++ post) i = at_ pre i.
Proof. intros H. unfold at_. apply app_nth1. lia. Qed.

Lemma at_app_r (pre post : list Z) (i : Z) :
  0 <= i -> at_ (pre ++ post) (Z.of_nat (length pre) + i) = at_ post i.
Proof.
  intros H. unfold at_. rewrite app_nth2 by lia. f_equal. lia.
Qed.

Lemma at_overflow (a : list Z) (i : Z) :
  Z.of_nat (length a) <= i -> at_ a i = 0.
Proof. intros H. unfold at_. apply nth_overflow. lia. Qed.

Lemma store_app_length (pre post : list Z) (x v : Z) :
  store (pre ++ x :: post) (Z.of_nat (length pre)) v = pre ++ v :: post.
Proof.
  unfold store. destruct (Z.ltb_spec (Z.of_nat (length pre)) 0) as [|_]; [lia|].
  rewrite Nat2Z.id. induction pre as [|y pre IH]; cbn; [reflexivity | now rewrite IH].
Qed.

Lemma in_indices (n i : Z) : In i (indices n) <-> 0 <= i < n.
Proof.
  unfold indices. rewrite in_map_iff. split.
  - intros (k & <- & Hk). apply in_seq in Hk. lia.
  - intros H. exists (Z.to_nat i). split; [lia|]. apply in_seq. lia.
Qed.

Lemma at_map_indices (F : Z -> Z) (n i : Z) :
  0 <= i < n -> at_ (map F (indices n)) i = F i.
Proof.
  intros H. unfold at_, indices. rewrite map_map.
  rewrite (nth_indep _ 0 (F (Z.of_nat 0))) by (rewrite length_map, length_seq; lia).
  rewrite (map_nth (fun k => F (Z.of_nat k))), seq_nth by lia.
  f_equal. lia.
Qed.

(** *** Powers of two and bits *)

Lemma pow2_pos (n : Z) : 0 <= n -> 0 < 2 ^ n.
Proof. intros H. apply Z.pow_pos_nonneg; lia. Qed.

Lemma pow2_le (n m : Z) : 0 <= n <= m -> 2 ^ n <= 2 ^ m.
Proof. intros H. apply Z.pow_le_mono_r; lia. Qed.

Lemma pow2_split (n m : Z) : 0 <= n -> 0 <= m -> 2 ^ (n + m) = 2 ^ n * 2 ^ m.
Proof. intros. apply Z.pow_add_r; lia. Qed.

(** Bits packed above a value that fits below them: OR is addition. *)
Lemma lor_above (a b s : Z) :
  0 <= s -> 0 <= a < 2 ^ s -> Z.lor a (b * 2 ^ s) = a + b * 2 ^ s.
Proof.
  intros Hs Ha.
  assert (Hdisjoint : Z.land a (b * 2 ^ s) = 0).
  { apply Z.bits_inj'. intros n Hn.
    rewrite Z.land_spec, Z.bits_0, <- Z.shiftl_mul_pow2 by lia.
    destruct (Z.lt_ge_cases n s).
    - rewrite Z.shiftl_spec_low by lia. apply andb_false_r.
    - rewrite <- (Z.mod_small a (2 ^ s)) by lia.
      rewrite Z.mod_pow2_bits_high by lia. reflexivity. }
  rewrite <- Z.lxor_lor by exact Hdisjoint.
  symmetry. apply Z.add_nocarry_lxor. exact Hdisjoint.
Qed.

Lemma lor_bounds (a b n : Z) :
  0 <= n -> 0 <= a < 2 ^ n -> 0 <= b < 2 ^ n ->
  0 <= Z.lor a b < 2 ^ n /\ a <= Z.lor a b /\ b <= Z.lor a b.
Proof.
  intros Hn Ha Hb.
  assert (H0 : 0 <= Z.lor a b) by (apply Z.lor_nonneg; lia).
  assert (Hland : 0 <= Z.land a b) by (apply Z.land_nonneg; lia).
  assert (Hla : Z.land a b <= a).
  { pose proof (Zbitwise.Z.sub_land_same_l a b) as E.
    assert (0 <= Z.land a (Z.lnot b)) by (apply Z.land_nonneg; lia). lia. }
  assert (Hlb : Z.land a b <= b).
  { rewrite Z.land_comm.
    pose proof (Zbitwise.Z.sub_land_same_l b a) as E.
    assert (0 <= Z.land b (Z.lnot a)) by (apply Z.land_nonneg; lia). lia. }
  pose proof (Zbitwise.Z.add_lor_land a b) as Hsum.
  repeat split; try lia.
  destruct (Z.eq_dec (Z.lor a b) 0) as [->|Hnz]; [lia|].
  assert (Hnpos : 0 < n).
  { destruct (Z.eq_dec n 0) as [->|]; [|lia]. change (2 ^ 0) with 1 in *.
    replace a with 0 in Hnz by lia. replace b with 0 in Hnz by lia.
    now contradiction Hnz. }
  apply Z.log2_lt_pow2; [lia|].
  rewrite Z.log2_lor by lia.
  apply Z.max_lub_lt.
  - destruct (Z.eq_dec a 0) as [->|]; [cbn; lia | apply Z.log2_lt_pow2; lia].
  - destruct (Z.eq_dec b 0) as [->|]; [cbn; lia | apply Z.log2_lt_pow2; lia].
Qed.

(** *** The selector *)

(** The selector word of a list of widths: each width [w] contributes [w-1]
    zero bits and a one bit, the first width in the lowest bits. *)
Fixpoint selector_of (widths : list Z) : Z :=
  match widths with
  | [] => 0
  | w :: rest => 2 ^ (w - 1) + 2 ^ w * selector_of rest
  end.

Lemma selector_of_bounds (widths : list Z) :
  Forall width_ok widths ->
  0 <= selector_of widths < 2 ^ sumZ widths /\ 0 <= sumZ widths.
Proof.
  unfold width_ok.
  induction 1 as [|w rest Hw _ IH]; cbn [selector_of sumZ fold_right]; [cbn; lia|].
  fold (sumZ rest). destruct IH as [IH Hsum].
  pose proof (pow2_pos (w - 1)). pose proof (pow2_pos w).
  pose proof (pow2_pos (sumZ rest)).
  rewrite pow2_split by lia.
  replace (2 ^ w) with (2 * 2 ^ (w - 1)) in *
    by (rewrite <- Z.pow_succ_r by lia; f_equal; lia).
  split; [nia | lia].
Qed.

Lemma find_terminator_spec (encodings : list Z) (k : nat) (todo : nat) :
  forall current : nat,
    (current <= k <= current + todo)%nat ->
    (forall i, (current <= i < k)%nat -> at_ encodings (Z.of_nat i) <> 0) ->
    ((k < current + todo)%nat -> at_ encodings (Z.of_nat k) = 0) ->
    find_terminator todo encodings current = k.
Proof.
  induction todo as [|todo IH]; intros current Hk Hnz Hz; cbn [find_terminator].
  - lia.
  - destruct (Z.eqb_spec (at_ encodings (Z.of_nat current)) 0) as [E|E].
    + destruct (Nat.eq_dec current k) as [|Hne]; [assumption|].
      exfalso. apply (Hnz current); [lia | exact E].
    + apply IH; [| intros i Hi; apply Hnz; lia | intros; apply Hz; lia].
      destruct (Nat.eq_dec current k) as [->|]; [|lia].
      exfalso. apply E, Hz. lia.
Qed.

(** One round of the second loop of compute_selector. *)
Definition selector_step (number_of_0s value : Z) : Z :=
  Z.lor (uint32_t (Z.shiftl value number_of_0s))
    (uint32_t (Z.shiftl 1 (number_of_0s - 1))).

Lemma permutation_number_fold (widths : list Z) :
  forall (rest : list Z) (value : Z),
    permutation_number (length widths) (widths ++ rest) value
    = fold_right selector_step value widths.
Proof.
  induction widths as [|w widths IH] using rev_ind; intros rest value; [reflexivity|].
  rewrite length_app, Nat.add_1_r. cbn [permutation_number].
  rewrite <- app_assoc. cbn [app]. rewrite at_app_length.
  rewrite IH, fold_right_app. reflexivity.
Qed.

Lemma selector_step_spec (w : Z) (rest : list Z) :
  width_ok w -> Forall width_ok rest -> w + sumZ rest <= 32 ->
  selector_step w (selector_of rest) = selector_of (w :: rest).
Proof.
  unfold width_ok. intros Hw Hrest Hsum. unfold selector_step, uint32_t.
  destruct (selector_of_bounds rest Hrest) as [Hsel Hnonneg].
  pose proof (pow2_pos (w - 1)). pose proof (pow2_pos w).
  pose proof (pow2_pos (sumZ rest)).
  assert (Hw1 : 2 ^ w = 2 * 2 ^ (w - 1))
    by (rewrite <- Z.pow_succ_r by lia; f_equal; lia).
  rewrite !Z.shiftl_mul_pow2, Z.mul_1_l by lia.
  assert (Hfit : 2 ^ (w + sumZ rest) <= 2 ^ 32) by (apply pow2_le; lia).
  rewrite pow2_split in Hfit by lia.
  rewrite !Z.mod_small by nia.
  rewrite Z.lor_comm, lor_above by lia.
  cbn [selector_of]. lia.
Qed.

Lemma fold_selector_step (widths : list Z) :
  Forall width_ok widths -> sumZ widths <= 32 ->
  fold_right selector_step 0 widths = selector_of widths.
Proof.
  induction 1 as [|w rest Hw Hrest IH]; intros Hsum; [reflexivity|].
  cbn [fold_right sumZ] in *. fold (sumZ rest) in Hsum.
  destruct (selector_of_bounds rest Hrest) as [_ Hnonneg].
  rewrite IH by (unfold width_ok in Hw; lia).
  apply selector_step_spec; assumption.
Qed.

Lemma length_le_sum (widths : list Z) :
  Forall width_ok widths -> Z.of_nat (length widths) <= sumZ widths.
Proof.
  unfold width_ok. induction 1 as [|w rest Hw _ IH]; cbn [length sumZ fold_right]; [lia|].
  fold (sumZ rest). lia.
Qed.

(** compute_selector on an array that holds the widths, a 0 terminator and
    anything after it. *)
Lemma compute_selector_spec (widths rest : list Z) :
  Forall width_ok widths -> sumZ widths <= 32 ->
  compute_selector (widths ++ 0 :: rest) = selector_of widths.
Proof.
  intros Hok Hsum. unfold compute_selector.
  pose proof (length_le_sum widths Hok) as Hlen.
  rewrite (find_terminator_spec _ (length widths)).
  - rewrite permutation_number_fold. apply fold_selector_step; assumption.
  - lia.
  - intros i Hi. rewrite at_app_l by lia.
    assert (Hin : In (at_ widths (Z.of_nat i)) widths)
      by (unfold at_; rewrite Nat2Z.id; apply nth_In; lia).
    rewrite Forall_forall in Hok. specialize (Hok _ Hin). unfold width_ok in Hok. lia.
  - intros _. apply at_app_length.
Qed.

(** *** find_first_set_bit *)

Lemma find_first_set_bit_pos_spec (p : positive) :
  exists q, 0 <= q /\ 1 <= find_first_set_bit_pos p
            /\ Zpos p = 2 ^ (find_first_set_bit_pos p - 1) * (2 * q + 1).
Proof.
  induction p as [p _|p IH|].
  - exists (Zpos p). cbn [find_first_set_bit_pos]. change (2 ^ (1 - 1)) with 1. lia.
  - destruct IH as (q & Hq & Hf & E). exists q. cbn [find_first_set_bit_pos].
    replace (1 + find_first_set_bit_pos p - 1) with (Z.succ (find_first_set_bit_pos p - 1))
      by lia.
    rewrite Z.pow_succ_r by lia. lia.
  - exists 0. cbn. lia.
Qed.

Lemma find_first_set_bit_pow (k : nat) (q : Z) :
  0 <= q -> find_first_set_bit (2 ^ Z.of_nat k * (2 * q + 1)) = Z.of_nat k + 1.
Proof.
  intros Hq. induction k as [|k IH].
  - change (2 ^ Z.of_nat 0) with 1. rewrite Z.mul_1_l.
    destruct q as [|q|q]; [reflexivity | reflexivity | lia].
  - rewrite Nat2Z.inj_succ, Z.pow_succ_r by lia.
    pose proof (pow2_pos (Z.of_nat k)).
    destruct (2 ^ Z.of_nat k * (2 * q + 1)) as [|p|p] eqn:E; try nia.
    replace (2 * 2 ^ Z.of_nat k * (2 * q + 1)) with (2 * (2 ^ Z.of_nat k * (2 * q + 1)))
      by ring.
    rewrite E. cbn [find_first_set_bit Z.mul Pos.mul find_first_set_bit_pos] in *.
    lia.
Qed.

Lemma find_first_set_bit_selector (w : Z) (rest : list Z) :
  width_ok w -> Forall width_ok rest ->
  find_first_set_bit (selector_of (w :: rest)) = w
  /\ Z.shiftr (selector_of (w :: rest)) w = selector_of rest
  /\ selector_of (w :: rest) <> 0.
Proof.
  unfold width_ok. intros Hw Hrest. cbn [selector_of].
  destruct (selector_of_bounds rest Hrest) as [Hsel _].
  pose proof (pow2_pos (w - 1)). pose proof (pow2_pos w).
  assert (Hw1 : 2 ^ w = 2 * 2 ^ (w - 1))
    by (rewrite <- Z.pow_succ_r by lia; f_equal; lia).
  repeat split.
  - replace (2 ^ (w - 1) + 2 ^ w * selector_of rest)
      with (2 ^ Z.of_nat (Z.to_nat (w - 1)) * (2 * selector_of rest + 1))
      by (rewrite Z2Nat.id by lia; lia).
    rewrite find_first_set_bit_pow by lia. lia.
  - rewrite Z.shiftr_div_pow2 by lia.
    symmetry. apply (Z.div_unique_pos _ _ _ (2 ^ (w - 1))); lia.
  - nia.
Qed.

Lemma width_extraction_selector (widths : list Z) :
  forall fuel : nat,
    Forall width_ok widths -> (length widths <= fuel)%nat ->
    width_extraction fuel (selector_of widths) = widths.
Proof.
  induction widths as [|w rest IH]; intros fuel Hok Hfuel.
  - destruct fuel; reflexivity.
  - destruct fuel as [|fuel]; [cbn in Hfuel; lia|].
    inversion Hok as [|? ? Hw Hrest]; subst.
    destruct (find_first_set_bit_selector w rest Hw Hrest) as (Hffs & Hshift & Hnz).
    cbn [width_extraction].
    destruct (Z.eqb_spec (selector_of (w :: rest)) 0); [contradiction|].
    rewrite Hffs. unfold uint32_t. unfold width_ok in Hw.
    rewrite Z.mod_small by lia. rewrite Hshift.
    f_equal. apply IH; [assumption | cbn in Hfuel; lia].
Qed.

(** Reading the widths off any selector below [2 ^ bits]. *)
Lemma width_extraction_inverse (fuel : nat) :
  forall selector bits : Z,
    0 <= selector < 2 ^ bits -> 0 <= bits <= Z.of_nat fuel -> bits <= 32 ->
    let widths := width_extraction fuel selector in
    selector_of widths = selector
    /\ Forall width_ok widths
    /\ sumZ widths <= bits.
Proof.
  induction fuel as [|fuel IH]; intros selector bits Hsel Hbits H32; cbn zeta.
  - replace bits with 0 in Hsel by lia. cbn in *. repeat split; [lia | constructor | lia].
  - cbn [width_extraction].
    destruct (Z.eqb_spec selector 0) as [->|Hnz];
      [cbn; repeat split; [constructor | lia]|].
    destruct selector as [|p|p]; try lia.
    destruct (find_first_set_bit_pos_spec p) as (q & Hq & Hf & E).
    cbn [find_first_set_bit].
    set (w := find_first_set_bit_pos p) in *.
    pose proof (pow2_pos (w - 1)). pose proof (pow2_pos w). pose proof (pow2_pos bits).
    assert (Hw1 : 2 ^ w = 2 * 2 ^ (w - 1))
      by (rewrite <- Z.pow_succ_r by lia; f_equal; lia).
    assert (Hwbits : w <= bits).
    { destruct (Z.lt_ge_cases bits w) as [Hlt|]; [|lia].
      assert (2 ^ bits <= 2 ^ (w - 1)) by (apply pow2_le; lia). nia. }
    unfold uint32_t. rewrite Z.mod_small by lia.
    assert (Hshift : Z.shiftr (Zpos p) w = q).
    { rewrite Z.shiftr_div_pow2 by lia.
      symmetry. apply (Z.div_unique_pos _ _ _ (2 ^ (w - 1))); lia. }
    rewrite Hshift.
    assert (Hqbound : q < 2 ^ (bits - w)).
    { replace bits with (w + (bits - w)) in Hsel by lia.
      rewrite pow2_split in Hsel by lia.
      pose proof (pow2_pos (bits - w)). nia. }
    destruct (IH q (bits - w)) as (Hsel' & Hok' & Hsum'); [lia | lia | lia |].
    cbn [selector_of sumZ fold_right]. fold (sumZ (width_extraction fuel q)).
    rewrite Hsel'. repeat split; [lia | | lia].
    constructor; [unfold width_ok; lia | exact Hok'].
Qed.

(** C5: compute_selector and the decoder's width extraction are mutual
    inverses.  For widths [w1 .. wk] with [1 <= wi <= 32] and sumZ at most 32,
    extracting the widths from [compute_selector [w1; ..; wk; 0]] gives back
    [w1 .. wk]; conversely every 32-bit selector is the compute_selector of
    the widths extracted from it, which are of that kind; and
    [compute_selector [3; 2; 5; 4; 0]] is 8724, whose widths are
    [3; 2; 5; 4]. *)
Theorem selector_bijection :
  (forall widths : list Z,
      Forall (fun w => 1 <= w <= 32) widths -> sumZ widths <= 32 ->
      selector_widths (compute_selector (widths ++ [0])) = widths)
  /\ (forall selector : Z,
        0 <= selector < 2 ^ 32 ->
        Forall (fun w => 1 <= w <= 32) (selector_widths selector)
        /\ sumZ (selector_widths selector) <= 32
        /\ compute_selector (selector_widths selector ++ [0]) = selector)
  /\ compute_selector [3; 2; 5; 4; 0] = 8724
  /\ selector_widths 8724 = [3; 2; 5; 4].
Proof.
  split; [|split; [|split; reflexivity]].
  - intros widths Hok Hsum. unfold selector_widths.
    rewrite compute_selector_spec by assumption.
    apply width_extraction_selector; [assumption|].
    pose proof (length_le_sum widths Hok). lia.
  - intros selector Hsel. unfold selector_widths.
    destruct (width_extraction_inverse 32 selector 32) as (Hof & Hok & Hsum);
      [assumption | lia | lia |].
    repeat split; [assumption | assumption |].
    rewrite compute_selector_spec by assumption. exact Hof.
Qed.

Lemma selector_bijection_witness :
  selector_widths (compute_selector ([3; 2; 5; 4] ++ [0])) = [3; 2; 5; 4].
Proof.
  destruct selector_bijection as [Hinverse _].
  apply Hinverse.
  - repeat constructor; lia.
  - cbn. lia.
Defined.

(** *** The decoder on one codeword *)

Lemma mask_values_ones (width : Z) :
  0 <= width <= 32 -> at_ mask_values width = Z.ones width.
Proof.
  intros H. rewrite <- (Z2Nat.id width) by lia.
  assert (Hn : (Z.to_nat width <= 32)%nat) by lia.
  clear H. revert Hn. generalize (Z.to_nat width). intros n Hn.
  do 33 (destruct n as [|n]; [reflexivity|]). lia.
Qed.

(** What the decoder stores for a list of widths, starting from the two
    payload registers. *)
Fixpoint unpack (widths : list Z) (payload1 payload2 : list Z) : list Z :=
  match widths with
  | [] => []
  | width :: rest =>
      let mask := firstn 8 (mask_set width) in
      (_mm256_and_si256 payload1 mask ++ _mm256_and_si256 payload2 mask)
        ++ unpack rest (_mm256_srli_epi32 payload1 width)
             (_mm256_srli_epi32 payload2 width)
  end.

Section decode_one_codeword.
Variables (mem : list Z) (source end_of_source : Z).

Lemma decode_loop_selector_0 (fuel : nat) (payload1 payload2 : list Z) :
  decode_loop fuel 0 payload1 payload2 mem source end_of_source
  = decode_loop fuel 0 [] [] mem source end_of_source.
Proof. destruct fuel; reflexivity. Qed.

(** With the selector of a list of widths in hand, the loop stores one
    group of 16 integers per width and then looks for the next codeword. *)
Lemma decode_loop_codeword (widths : list Z) :
  forall (payload1 payload2 : list Z) (extra : nat),
    Forall width_ok widths ->
    decode_loop (length widths + extra) (selector_of widths) payload1 payload2
      mem source end_of_source
    = option_map (app (unpack widths payload1 payload2))
        (decode_loop extra 0 [] [] mem source end_of_source).
Proof.
  induction widths as [|w rest IH]; intros payload1 payload2 extra Hok.
  - cbn [length Nat.add selector_of unpack]. rewrite decode_loop_selector_0.
    destruct (decode_loop extra 0 [] [] mem source end_of_source); reflexivity.
  - inversion Hok as [|? ? Hw Hrest]; subst.
    destruct (find_first_set_bit_selector w rest Hw Hrest) as (Hffs & Hshift & Hnz).
    cbn [length Nat.add decode_loop].
    destruct (Z.eqb_spec (selector_of (w :: rest)) 0); [contradiction|].
    rewrite Hffs. unfold uint32_t at 1 2 3 4 5. unfold width_ok in Hw.
    rewrite Z.mod_small by lia. rewrite Hshift, IH by assumption.
    cbn [unpack].
    destruct (decode_loop extra 0 [] [] mem source end_of_source); cbn [option_map];
      [now rewrite app_assoc | reflexivity].
Qed.

(** The same for any 32-bit selector: the widths the loop uses are the
    extracted ones. *)
Lemma decode_loop_selector_widths (selector : Z) (payload1 payload2 : list Z)
    (extra : nat) :
  0 <= selector < 2 ^ 32 ->
  decode_loop (length (selector_widths selector) + extra) selector payload1 payload2
    mem source end_of_source
  = option_map (app (unpack (selector_widths selector) payload1 payload2))
      (decode_loop extra 0 [] [] mem source end_of_source).
Proof.
  intros Hsel.
  destruct (width_extraction_inverse 32 selector 32) as (Hof & Hok & _);
    [assumption | lia | lia |].
  cbn zeta in Hof, Hok. unfold selector_widths.
  pose proof (decode_loop_codeword (width_extraction 32 selector)
                payload1 payload2 extra Hok) as Hloop.
  rewrite Hof in Hloop. exact Hloop.
Qed.

End decode_one_codeword.

Lemma decode_loop_selector_widths_witness :
  decode_loop (length (selector_widths 8724) + 1) 8724
    [1; 2; 3; 4; 5; 6; 7; 0] [0; 0; 0; 0; 0; 0; 0; 9] [] 0 0
  = option_map
      (app (unpack (selector_widths 8724)
              [1; 2; 3; 4; 5; 6; 7; 0] [0; 0; 0; 0; 0; 0; 0; 9]))
      (decode_loop 1 0 [] [] [] 0 0).
Proof.
  apply (decode_loop_selector_widths [] 0 0 8724
           [1; 2; 3; 4; 5; 6; 7; 0] [0; 0; 0; 0; 0; 0; 0; 9] 1).
  lia.
Defined.

(** 16 lanes given by a function of the lane number, and the two registers
    that hold them. *)
Definition lanes (F : Z -> Z) : list Z := map F (indices 16).
Definition low (F : Z -> Z) : list Z := map F (indices 8).
Definition high (F : Z -> Z) : list Z := map (fun lane => F (8 + lane)) (indices 8).

(** The next group of an array: its first 16 elements, 0 where it ends
    earlier. *)
Definition lanes_of (array : list Z) : list Z := lanes (at_ array).

(** A slice is a width and the array whose next group is packed with it.
    One payload word holds its lane of every slice, first slice lowest. *)
Fixpoint lane_payload (word : Z) (slices : list (Z * list Z)) : Z :=
  match slices with
  | [] => 0
  | (w, array) :: rest => at_ array word + 2 ^ w * lane_payload word rest
  end.

Definition slice_ok (slice : Z * list Z) : Prop :=
  width_ok (fst slice)
  /\ forall word, 0 <= word < 16 -> 0 <= at_ (snd slice) word < 2 ^ fst slice.

Definition widths_of (slices : list (Z * list Z)) : list Z := map fst slices.

Definition values_of (slices : list (Z * list Z)) : list Z :=
  concat (map (fun slice => lanes_of (snd slice)) slices).

Lemma widths_ok (slices : list (Z * list Z)) :
  Forall slice_ok slices -> Forall width_ok (widths_of slices).
Proof.
  intros H. unfold widths_of. apply Forall_map.
  eapply Forall_impl; [|exact H]. intros s [Hw _]. exact Hw.
Qed.

Lemma lane_payload_bounds (word : Z) (slices : list (Z * list Z)) :
  0 <= word < 16 -> Forall slice_ok slices ->
  0 <= lane_payload word slices < 2 ^ sumZ (widths_of slices).
Proof.
  intros Hword. induction 1 as [|[w array] rest [Hw Hv] Hrest IH];
    cbn [lane_payload widths_of map sumZ fold_right fst]; [cbn; lia|].
  fold (widths_of rest). fold (sumZ (widths_of rest)).
  cbn [fst snd] in Hw, Hv. unfold width_ok in Hw. specialize (Hv word Hword).
  destruct (selector_of_bounds _ (widths_ok rest Hrest)) as [_ Hsum].
  rewrite pow2_split by lia.
  pose proof (pow2_pos w). pose proof (pow2_pos (sumZ (widths_of rest))). nia.
Qed.

Lemma and_lanes (Q : Z -> Z) (width : Z) :
  _mm256_and_si256 (low Q) (firstn 8 (mask_set width))
    ++ _mm256_and_si256 (high Q) (firstn 8 (mask_set width))
  = lanes (fun word => Z.land (Q word) (at_ mask_values width)).
Proof. reflexivity. Qed.

Lemma srli_lanes (Q : Z -> Z) (width : Z) :
  _mm256_srli_epi32 (low Q) width
  = low (fun word => if width >? 31 then 0 else Z.shiftr (Q word) width)
  /\ _mm256_srli_epi32 (high Q) width
     = high (fun word => if width >? 31 then 0 else Z.shiftr (Q word) width).
Proof. split; unfold _mm256_srli_epi32, low, high; now rewrite map_map. Qed.

Lemma lanes_ext (F G : Z -> Z) :
  (forall word, 0 <= word < 16 -> F word = G word) -> lanes F = lanes G.
Proof.
  intros H. unfold lanes. apply map_ext_in. intros word Hin.
  apply H, in_indices, Hin.
Qed.

Lemma low_high_ext (F G : Z -> Z) :
  (forall word, 0 <= word < 16 -> F word = G word) ->
  low F = low G /\ high F = high G.
Proof.
  intros H. unfold low, high.
  split; apply map_ext_in; intros lane Hin; apply in_indices in Hin; apply H; lia.
Qed.

(** Unpacking the payload of a list of slices gives their values back. *)
Lemma unpack_slices (slices : list (Z * list Z)) :
  forall Q : Z -> Z,
    Forall slice_ok slices -> sumZ (widths_of slices) <= 32 ->
    (forall word, 0 <= word < 16 -> Q word = lane_payload word slices) ->
    unpack (widths_of slices) (low Q) (high Q) = values_of slices.
Proof.
  induction slices as [|[w array] rest IH]; intros Q Hok Hsum HQ; [reflexivity|].
  inversion Hok as [|? ? [Hw Hv] Hrest]; subst. cbn [fst snd] in Hw, Hv.
  unfold width_ok in Hw.
  cbn [widths_of map fst sumZ fold_right] in Hsum.
  fold (widths_of rest) in Hsum. fold (sumZ (widths_of rest)) in Hsum.
  destruct (selector_of_bounds _ (widths_ok rest Hrest)) as [_ Hnonneg].
  unfold values_of. cbn [widths_of map fst snd unpack concat].
  fold (widths_of rest). fold (values_of rest).
  rewrite and_lanes.
  destruct (srli_lanes Q w) as [-> ->].
  f_equal.
  - unfold lanes_of. apply lanes_ext. intros word Hword.
    rewrite mask_values_ones, Z.land_ones, HQ by lia.
    cbn [lane_payload]. specialize (Hv word Hword).
    rewrite (Z.mul_comm (2 ^ w)), Z.mod_add by (pose proof (pow2_pos w); lia).
    apply Z.mod_small. lia.
  - apply IH; [assumption | lia |].
    intros word Hword. rewrite HQ by assumption. cbn [lane_payload].
    specialize (Hv word Hword).
    pose proof (lane_payload_bounds word rest Hword Hrest) as Hrestb.
    destruct (Z.gtb_spec w 31).
    + assert (Hzero : sumZ (widths_of rest) = 0) by lia.
      rewrite Hzero in Hrestb. change (2 ^ 0) with 1 in Hrestb. lia.
    + rewrite Z.shiftr_div_pow2 by lia.
      symmetry. apply (Z.div_unique_pos _ _ _ (at_ array word)); lia.
Qed.

(** Loading a codeword that sits in memory after [pre]. *)
Lemma load32_codeword (pre codeword rest : list Z) (i : Z) :
  0 <= i < Z.of_nat (length codeword) ->
  load32 (pre ++ codeword ++ rest) (4 * Z.of_nat (length pre) + 4 * i)
  = at_ codeword i.
Proof.
  intros Hi. unfold load32.
  replace (4 * Z.of_nat (length pre) + 4 * i) with ((Z.of_nat (length pre) + i) * 4)
    by lia.
  rewrite Z.div_mul by discriminate.
  rewrite at_app_r by lia. apply at_app_l. exact Hi.
Qed.

Lemma load_codeword (pre rest : list Z) (selector : Z) (P : Z -> Z) (source : Z) :
  source = 4 * Z.of_nat (length pre) ->
  let mem := pre ++ (selector :: lanes P) ++ rest in
  load32 mem source = selector
  /\ _mm256_loadu_si256 mem (source + 4) = low P
  /\ _mm256_loadu_si256 mem (source + 36) = high P.
Proof.
  intros -> mem. unfold mem.
  assert (Hlen : length (selector :: lanes P) = 17%nat) by reflexivity.
  repeat split.
  - replace (4 * Z.of_nat (length pre)) with (4 * Z.of_nat (length pre) + 4 * 0) by lia.
    rewrite load32_codeword by (rewrite Hlen; lia). reflexivity.
  - unfold _mm256_loadu_si256, low. apply map_ext_in. intros lane Hin.
    apply in_indices in Hin.
    replace (4 * Z.of_nat (length pre) + 4 + 4 * lane)
      with (4 * Z.of_nat (length pre) + 4 * (1 + lane)) by lia.
    rewrite load32_codeword by (rewrite Hlen; lia).
    change (selector :: lanes P) with ([selector] ++ lanes P).
    change 1 with (Z.of_nat (length [selector])). rewrite at_app_r by lia.
    apply at_map_indices. lia.
  - unfold _mm256_loadu_si256, high. apply map_ext_in. intros lane Hin.
    apply in_indices in Hin.
    replace (4 * Z.of_nat (length pre) + 36 + 4 * lane)
      with (4 * Z.of_nat (length pre) + 4 * (1 + (8 + lane))) by lia.
    rewrite load32_codeword by (rewrite Hlen; lia).
    change (selector :: lanes P) with ([selector] ++ lanes P).
    change 1 with (Z.of_nat (length [selector])). rewrite at_app_r by lia.
    apply at_map_indices. lia.
Qed.

(** *** The encoder on one codeword *)

Definition u32 (x : Z) : Prop := 0 <= x < 2 ^ 32.

Lemma uint8_small (x : Z) : 0 <= x <= 32 -> uint8_t x = x.
Proof. intros H. unfold uint8_t. apply Z.mod_small. lia. Qed.

Lemma at_u32 (array : list Z) (word : Z) :
  Forall u32 array -> u32 (at_ array word).
Proof.
  intros H. unfold at_.
  destruct (Nat.lt_ge_cases (Z.to_nat word) (length array)) as [Hlt|Hge].
  - rewrite Forall_forall in H. apply H, nth_In, Hlt.
  - rewrite nth_overflow by exact Hge. unfold u32. lia.
Qed.

Lemma guarded_read (array : list Z) (word : Z) :
  0 <= word ->
  (if word <? Z.of_nat (length array) then at_ array word else 0) = at_ array word.
Proof.
  intros H. destruct (Z.ltb_spec word (Z.of_nat (length array))); [reflexivity|].
  symmetry. apply at_overflow. lia.
Qed.

(** The bits of a column: every value of the group is below
    [2 ^ ceiling_log2 (column_bits ...)], and that width is between 1 and 32. *)
Lemma fold_lor_bounds (g : Z -> Z) (l : list Z) :
  forall acc : Z,
    u32 acc -> (forall x, In x l -> u32 (g x)) ->
    let r := fold_left (fun a x => Z.lor a (g x)) l acc in
    u32 r /\ acc <= r /\ (forall x, In x l -> g x <= r)
    /\ (Z.odd acc = true -> Z.odd r = true).
Proof.
  unfold u32. induction l as [|y l IH]; intros acc Hacc Hg; cbn [fold_left].
  - repeat split; try lia; [intros x [] | trivial].
  - assert (Hy : 0 <= g y < 2 ^ 32) by (apply Hg; now left).
    destruct (lor_bounds acc (g y) 32) as (Hb & Hl & Hr); [lia | lia | lia |].
    destruct (IH (Z.lor acc (g y))) as (Hu & Hle & Hin & Hodd);
      [exact Hb | intros x Hx; apply Hg; now right |].
    repeat split; try lia.
    + intros x [<-|Hx]; [lia | now apply Hin].
    + intros Hoddacc. apply Hodd.
      rewrite <- Z.bit0_odd, Z.lor_spec, Z.bit0_odd, Hoddacc. reflexivity.
Qed.

Lemma column_width (array : list Z) :
  Forall u32 array ->
  let w := maths.ceiling_log2 (column_bits array (Z.of_nat (length array))) in
  width_ok w /\ forall word, 0 <= word < 16 -> 0 <= at_ array word < 2 ^ w.
Proof.
  intros Hu. unfold column_bits.
  set (g := fun word => if word <? Z.of_nat (length array) then at_ array word else 1).
  destruct (fold_lor_bounds g (indices WORDS) 1) as (Hb & Hone & Hin & Hodd).
  { unfold u32. lia. }
  { intros x _. unfold g. destruct (_ <? _); [now apply at_u32 | unfold u32; lia]. }
  specialize (Hodd eq_refl). cbn zeta in *.
  set (b := fold_left _ _ _) in *.
  assert (Hvalues : forall word, 0 <= word < 16 -> 0 <= at_ array word <= b).
  { intros word Hword. pose proof (at_u32 array word Hu) as Hv. unfold u32 in Hv.
    split; [lia|].
    destruct (Z.ltb_spec word (Z.of_nat (length array))) as [Hlt|Hge].
    - specialize (Hin word). unfold g in Hin.
      destruct (Z.ltb_spec word (Z.of_nat (length array))); [|lia].
      apply Hin, in_indices. exact Hword.
    - rewrite at_overflow by lia. lia. }
  unfold maths.ceiling_log2, width_ok, u32 in *.
  destruct (Z.leb_spec b 1) as [Hsmall|Hbig].
  - split; [lia|]. intros word Hword. specialize (Hvalues word Hword).
    change (2 ^ 1) with 2. lia.
  - pose proof (Z.log2_up_spec b Hbig) as [_ Hup].
    pose proof (Z.log2_up_pos b Hbig) as Hpos.
    assert (Hle32 : Z.log2_up b <= 32) by (apply Z.log2_up_le_pow2; lia).
    assert (Hne : b <> 2 ^ Z.log2_up b).
    { intros E. rewrite E, Z.odd_pow in Hodd by lia. discriminate Hodd. }
    split; [lia|]. intros word Hword. specialize (Hvalues word Hword). lia.
Qed.

Lemma pack_column_lanes (D : Z -> Z) (array : list Z) (shift w : Z) :
  0 <= shift -> 0 <= w -> shift + w <= 32 ->
  (forall word, 0 <= word < 16 -> 0 <= D word < 2 ^ shift) ->
  (forall word, 0 <= word < 16 -> 0 <= at_ array word < 2 ^ w) ->
  pack_column (lanes D) array (Z.of_nat (length array)) shift
  = lanes (fun word => D word + 2 ^ shift * at_ array word).
Proof.
  intros Hshift Hw Hfit HD Hv. unfold pack_column, lanes.
  change (indices WORDS) with (indices 16).
  apply map_ext_in. intros word Hin. apply in_indices in Hin.
  rewrite at_map_indices, guarded_read by lia.
  specialize (HD word Hin). specialize (Hv word Hin).
  rewrite Z.shiftl_mul_pow2 by lia. unfold uint32_t.
  assert (Hpow : 2 ^ (shift + w) <= 2 ^ 32) by (apply pow2_le; lia).
  rewrite pow2_split in Hpow by lia.
  pose proof (pow2_pos shift). pose proof (pow2_pos w).
  rewrite Z.mod_small by nia.
  rewrite lor_above by lia. lia.
Qed.

Lemma length_lanes (F : Z -> Z) : length (lanes F) = 16%nat.
Proof. reflexivity. Qed.

Lemma nth_lanes_of (array : list Z) (i : nat) :
  (i < 16)%nat -> nth i (lanes_of array) 0 = nth i array 0.
Proof.
  intros H. unfold lanes_of, lanes.
  pose proof (at_map_indices (at_ array) 16 (Z.of_nat i)) as E.
  unfold at_ in E at 1. rewrite Nat2Z.id in E. rewrite E by lia.
  unfold at_. now rewrite Nat2Z.id.
Qed.

Lemma lanes_of_full (array : list Z) :
  (16 <= length array)%nat -> lanes_of array = firstn 16 array.
Proof.
  intros H. apply nth_ext with (d := 0) (d' := 0).
  - rewrite length_firstn. unfold lanes_of. rewrite length_lanes. lia.
  - unfold lanes_of at 1. rewrite length_lanes. intros i Hi.
    rewrite nth_lanes_of, nth_firstn by exact Hi.
    destruct (Nat.ltb_spec i 16); [reflexivity | lia].
Qed.

Lemma lanes_of_last (array : list Z) :
  (length array <= 16)%nat ->
  lanes_of array = array ++ repeat 0 (16 - length array).
Proof.
  intros H. apply nth_ext with (d := 0) (d' := 0).
  - rewrite length_app, repeat_length. unfold lanes_of. rewrite length_lanes. lia.
  - unfold lanes_of at 1. rewrite length_lanes. intros i Hi.
    rewrite nth_lanes_of by exact Hi.
    destruct (Nat.lt_ge_cases i (length array)).
    + now rewrite app_nth1.
    + rewrite app_nth2, nth_repeat, nth_overflow by lia. reflexivity.
Qed.

(** The exit of the slice loop, in terms of the slices it packed.  [ws] are
    the widths already in [encodings] (one per earlier slice of this
    codeword), [D] the payload so far. *)
Lemma pack_slices_spec (todo : nat) :
  forall (slice : nat) (encodings : list Z) (D : Z -> Z) (remaining shift : Z)
         (array ws junk : list Z),
    encodings = ws ++ junk -> length ws = slice -> length encodings = 33%nat ->
    (slice + todo = 32)%nat -> Z.of_nat slice <= shift ->
    shift + remaining = 32 -> 0 <= remaining ->
    Forall u32 array -> array <> [] \/ remaining = 32 ->
    (forall word, 0 <= word < 16 -> 0 <= D word < 2 ^ shift) ->
    match pack_slices todo slice encodings (lanes D) remaining shift array
            (Z.of_nat (length array)) with
    | Finished encodings' destination' =>
        exists (slices : list (Z * list Z)) (junk' : list Z) (k : nat),
          slices <> [] /\ Forall slice_ok slices
          /\ sumZ (widths_of slices) = remaining
          /\ encodings' = ws ++ widths_of slices ++ 0 :: junk'
          /\ destination'
             = lanes (fun word => D word + 2 ^ shift * lane_payload word slices)
          /\ values_of slices = array ++ repeat 0 k /\ (k <= 16)%nat
    | NextCodeword slice' encodings' destination' remaining' array' elements' =>
        exists (slices : list (Z * list Z)) (junk' : list Z),
          Forall slice_ok slices
          /\ sumZ (widths_of slices) + remaining' = remaining /\ 0 <= remaining'
          /\ encodings' = ws ++ widths_of slices ++ junk'
          /\ length encodings' = 33%nat
          /\ slice' = (slice + length slices)%nat
          /\ destination'
             = lanes (fun word => D word + 2 ^ shift * lane_payload word slices)
          /\ array = values_of slices ++ array'
          /\ elements' = Z.of_nat (length array') /\ array' <> []
          /\ (remaining = 32 -> slices <> [])
    end.
Proof.
  induction todo as [|todo IH];
    intros slice encodings D remaining shift array ws junk
           Henc Hws Hlen Htodo Hslice Hbits Hrem Hu Hfirst HD; subst slice.
  - cbn [pack_slices]. exists [], junk. cbn [widths_of map sumZ fold_right length app].
    repeat split; try lia;
      [ constructor | exact Henc
      | apply lanes_ext; intros word _; cbn [lane_payload]; lia
      | destruct Hfirst as [|]; [assumption | lia] ].
  - cbn [pack_slices].
    destruct (column_width array Hu) as [Hw Hv].
    set (w := maths.ceiling_log2 (column_bits array (Z.of_nat (length array)))) in *.
    unfold width_ok in Hw.
    destruct junk as [|j0 junk];
      [rewrite app_nil_r in Henc; rewrite Henc in Hlen; lia|].
    destruct (Z.leb_spec w remaining) as [Hfits|Hfull].
    + (* the column fits *)
      rewrite Henc, store_app_length, uint8_small by lia.
      rewrite (pack_column_lanes D array shift w) by (assumption || lia).
      change WORDS with 16. change (Z.to_nat 16) with 16%nat.
      destruct (Z.geb_spec 16 (Z.of_nat (length array))) as [Hlast|Hmore].
      * (* and it is the last one *)
        rewrite at_app_length, store_app_length, uint8_small by lia.
        destruct junk as [|j1 junk];
          [rewrite Henc, length_app in Hlen; cbn in Hlen; lia|].
        replace (ws ++ (w + (remaining - w)) :: j1 :: junk)
          with ((ws ++ [w + (remaining - w)]) ++ j1 :: junk)
          by (rewrite <- app_assoc; reflexivity).
        replace (Z.of_nat (length ws) + 1)
          with (Z.of_nat (length (ws ++ [w + (remaining - w)])))
          by (rewrite length_app; cbn [length]; lia).
        rewrite store_app_length.
        exists [(remaining, array)], junk, (16 - length array)%nat.
        cbn [widths_of map fst sumZ fold_right].
        repeat split; try lia.
        -- discriminate.
        -- constructor; [|constructor]. split; cbn [fst snd]; [unfold width_ok; lia|].
           intros word Hword. specialize (Hv word Hword).
           assert (2 ^ w <= 2 ^ remaining) by (apply pow2_le; lia). lia.
        -- rewrite <- app_assoc. cbn [app]. do 3 f_equal. lia.
        -- apply lanes_ext. intros word _. cbn [lane_payload]. lia.
        -- unfold values_of. cbn [map concat snd]. rewrite app_nil_r.
           apply lanes_of_last. lia.
      * (* more input follows *)
        replace (ws ++ w :: junk) with ((ws ++ [w]) ++ junk)
          by (rewrite <- app_assoc; reflexivity).
        replace (Z.of_nat (length array) - 16)
          with (Z.of_nat (length (skipn 16 array)))
          by (rewrite length_skipn; lia).
        assert (HD' : forall word, 0 <= word < 16 ->
                   0 <= D word + 2 ^ shift * at_ array word < 2 ^ (shift + w)).
        { intros word Hword. specialize (HD word Hword). specialize (Hv word Hword).
          rewrite pow2_split by lia.
          pose proof (pow2_pos shift). pose proof (pow2_pos w). nia. }
        specialize (IH (S (length ws)) ((ws ++ [w]) ++ junk)
                      (fun word => D word + 2 ^ shift * at_ array word)
                      (remaining - w) (shift + w) (skipn 16 array) (ws ++ [w]) junk).
        match type of IH with
        | _ -> _ -> _ -> _ -> _ -> _ -> _ -> _ -> _ -> _ -> ?concl =>
            assert (IH' : concl)
        end.
        { apply IH; try lia; try reflexivity.
          - rewrite length_app. cbn [length]. lia.
          - rewrite Henc, length_app in Hlen. rewrite !length_app. cbn [length] in *. lia.
          - apply Forall_forall. intros x Hx. rewrite Forall_forall in Hu.
            apply Hu. rewrite <- (firstn_skipn 16 array). apply in_or_app. now right.
          - left. intros E. apply (f_equal (@length Z)) in E.
            rewrite length_skipn in E. cbn in E. lia.
          - exact HD'. }
        clear IH.
        assert (Hsplit : lanes_of array ++ skipn 16 array = array).
        { rewrite lanes_of_full by lia. apply firstn_skipn. }
        destruct (pack_slices todo (S (length ws)) _ _ _ _ _ _)
          as [encodings' destination'
             |slice' encodings' destination' remaining' array' elements'].
        -- destruct IH' as (slices & junk' & k & Hne & Hok & Hsum & Henc' & Hdest & Hval & Hk).
           exists ((w, array) :: slices), junk', k.
           cbn [widths_of map fst sumZ fold_right]. fold (widths_of slices).
           fold (sumZ (widths_of slices)).
           repeat split; try lia.
           ++ discriminate.
           ++ constructor; [|exact Hok]. split; [exact Hw | exact Hv].
           ++ rewrite Henc', <- !app_assoc. reflexivity.
           ++ rewrite Hdest. apply lanes_ext. intros word _. cbn [lane_payload].
              rewrite pow2_split by lia.
              rewrite Z.mul_add_distr_l, Z.mul_assoc, Z.add_assoc. reflexivity.
           ++ unfold values_of in *. cbn [map concat snd]. rewrite Hval, app_assoc.
              now rewrite Hsplit.
        -- destruct IH' as (slices & junk' & Hok & Hsum & Hrem' & Henc' & Hlen' & Hslice'
                            & Hdest & Hval & Helems & Hne & _).
           exists ((w, array) :: slices), junk'.
           cbn [widths_of map fst sumZ fold_right length]. fold (widths_of slices).
           fold (sumZ (widths_of slices)).
           repeat split; try lia; try assumption.
           ++ constructor; [|exact Hok]. split; [exact Hw | exact Hv].
           ++ rewrite Henc', <- !app_assoc. reflexivity.
           ++ rewrite Hdest. apply lanes_ext. intros word _. cbn [lane_payload].
              rewrite pow2_split by lia.
              rewrite Z.mul_add_distr_l, Z.mul_assoc, Z.add_assoc. reflexivity.
           ++ unfold values_of in *. cbn [map concat snd].
              rewrite <- app_assoc, <- Hval. now rewrite Hsplit.
           ++ discriminate.
    + (* the column does not fit: on to the next codeword *)
      exists [], (j0 :: junk). cbn [widths_of map sumZ fold_right length app].
      repeat split; try lia;
        [ constructor | exact Henc
        | apply lanes_ext; intros word _; cbn [lane_payload]; lia
        | destruct Hfirst as [|]; [assumption | lia] ].
Qed.

Lemma length_values_of (slices : list (Z * list Z)) :
  length (values_of slices) = (16 * length slices)%nat.
Proof.
  unfold values_of. induction slices as [|s slices IH]; [reflexivity|].
  cbn [map concat length]. rewrite length_app, IH. unfold lanes_of.
  rewrite length_lanes. lia.
Qed.

Lemma lane_payload_last (word : Z) (slices : list (Z * list Z)) (w w' : Z)
    (array : list Z) :
  lane_payload word (slices ++ [(w', array)]) = lane_payload word (slices ++ [(w, array)]).
Proof.
  induction slices as [|[w0 a0] slices IH]; cbn [app lane_payload]; [lia|].
  now rewrite IH.
Qed.

Lemma sum_app (l1 l2 : list Z) : sumZ (l1 ++ l2) = sumZ l1 + sumZ l2.
Proof.
  unfold sumZ. induction l1 as [|x l1 IH]; cbn [app fold_right]; [lia|].
  rewrite IH. lia.
Qed.

(** Folding the unused bits of a codeword into the width of its last slice. *)
Lemma pad_last_slice (slices : list (Z * list Z)) (w : Z) (array : list Z) (r : Z) :
  Forall slice_ok (slices ++ [(w, array)]) -> 0 <= r ->
  sumZ (widths_of (slices ++ [(w, array)])) + r <= 32 ->
  let padded := slices ++ [(w + r, array)] in
  Forall slice_ok padded
  /\ sumZ (widths_of padded) = sumZ (widths_of (slices ++ [(w, array)])) + r
  /\ widths_of padded = widths_of slices ++ [w + r]
  /\ (forall word, lane_payload word padded
                   = lane_payload word (slices ++ [(w, array)]))
  /\ values_of padded = values_of (slices ++ [(w, array)]).
Proof.
  intros Hok Hr Hsum padded. unfold padded, widths_of, values_of in *.
  rewrite !map_app, !sum_app in *. cbn [map fst snd sumZ fold_right] in *.
  apply Forall_app in Hok as [Hok Hlast].
  inversion Hlast as [|? ? [Hw Hv] _]; subst. cbn [fst snd] in Hw, Hv.
  unfold width_ok in Hw.
  destruct (selector_of_bounds _ (widths_ok slices Hok)) as [_ Hnonneg].
  unfold widths_of in Hnonneg.
  repeat split; try lia.
  - apply Forall_app. split; [exact Hok|]. constructor; [|constructor].
    split; cbn [fst snd]; [unfold width_ok; lia|].
    intros word Hword. specialize (Hv word Hword).
    assert (2 ^ w <= 2 ^ (w + r)) by (apply pow2_le; lia). lia.
  - intros word. apply lane_payload_last.
Qed.

(** One round of the outer loop of encode: the codeword written, as the
    selector and payload of a list of slices that fill the 32 bits. *)
Lemma encode_codeword (encodings array : list Z) :
  length encodings = 33%nat -> Forall u32 array ->
  match pack_slices 32 0 encodings (repeat 0 (Z.to_nat WORDS)) WORD_WIDTH 0 array
          (Z.of_nat (length array)) with
  | Finished encodings' payload =>
      exists (slices : list (Z * list Z)) (k : nat),
        slices <> [] /\ Forall slice_ok slices /\ sumZ (widths_of slices) = 32
        /\ compute_selector encodings' = selector_of (widths_of slices)
        /\ payload = lanes (fun word => lane_payload word slices)
        /\ values_of slices = array ++ repeat 0 k /\ (k <= 16)%nat
  | NextCodeword slice encodings' payload remaining array' elements' =>
      let encodings2 :=
        store
          (store encodings' (Z.of_nat slice - 1)
             (uint8_t (at_ encodings' (Z.of_nat slice - 1) + remaining)))
          (Z.of_nat slice) 0 in
      exists slices : list (Z * list Z),
        slices <> [] /\ Forall slice_ok slices /\ sumZ (widths_of slices) = 32
        /\ compute_selector encodings2 = selector_of (widths_of slices)
        /\ length encodings2 = 33%nat
        /\ payload = lanes (fun word => lane_payload word slices)
        /\ array = values_of slices ++ array'
        /\ elements' = Z.of_nat (length array') /\ array' <> []
  end.
Proof.
  intros Hlen Hu.
  pose proof (pack_slices_spec 32 0 encodings (fun _ => 0) 32 0 array [] encodings
                eq_refl eq_refl Hlen eq_refl) as Hspec.
  change (lanes (fun _ => 0)) with (repeat 0 (Z.to_nat WORDS)) in Hspec.
  change WORD_WIDTH with 32.
  match type of Hspec with
  | _ -> _ -> _ -> _ -> _ -> _ -> ?concl => assert (H : concl)
  end.
  { apply Hspec; [lia | lia | lia | assumption | now right | intros; cbn; lia]. }
  clear Hspec.
  destruct (pack_slices 32 0 _ _ _ _ _ _)
    as [encodings' payload|slice encodings' payload remaining array' elements'].
  - destruct H as (slices & junk' & k & Hne & Hok & Hsum & Henc & Hpay & Hval & Hk).
    exists slices, k. cbn [app] in Henc.
    repeat split; try assumption.
    + rewrite Henc. apply compute_selector_spec; [now apply widths_ok | lia].
    + rewrite Hpay. apply lanes_ext. intros word _. change (2 ^ 0) with 1. lia.
  - destruct H as (slices & junk' & Hok & Hsum & Hrem & Henc & Hlen' & Hslice & Hpay
                   & Hval & Helems & Harray & Hne).
    specialize (Hne eq_refl). cbn [app Nat.add] in Henc, Hslice. cbn zeta.
    destruct (exists_last Hne) as (slices0 & [w arr] & ->).
    destruct (pad_last_slice slices0 w arr remaining Hok Hrem)
      as (Hok' & Hsum' & Hwidths & Hlane & Hval'); [lia|].
    exists (slices0 ++ [(w + remaining, arr)]).
    assert (Hw : width_ok w).
    { apply Forall_app in Hok as [_ Hl]. inversion Hl as [|? ? [Hw _] _]. exact Hw. }
    unfold width_ok in Hw.
    assert (Hjunk : junk' <> []).
    { intros ->. rewrite app_nil_r in Henc. subst encodings'.
      pose proof (length_le_sum _ (widths_ok _ Hok)). lia. }
    destruct junk' as [|j junk']; [contradiction|].
    unfold widths_of in Henc. rewrite map_app in Henc. cbn [map fst] in Henc.
    fold (widths_of slices0) in Henc. rewrite <- app_assoc in Henc. cbn [app] in Henc.
    assert (Hidx : Z.of_nat slice - 1 = Z.of_nat (length (widths_of slices0))).
    { rewrite Hslice, length_app. unfold widths_of. rewrite length_map.
      cbn [length]. lia. }
    assert (Hwr : 0 <= w + remaining <= 32).
    { pose proof (proj2 (selector_of_bounds _ (widths_ok _ Hok'))) as Hnonneg.
      rewrite Hwidths, sum_app in Hsum', Hnonneg.
      apply Forall_app in Hok as [Hok0 _].
      pose proof (proj2 (selector_of_bounds _ (widths_ok _ Hok0))).
      cbn [sumZ fold_right] in *. lia. }
    rewrite Hidx, Henc, at_app_length, store_app_length, uint8_small by lia.
    replace (widths_of slices0 ++ (w + remaining) :: j :: junk')
      with ((widths_of slices0 ++ [w + remaining]) ++ j :: junk')
      by (rewrite <- app_assoc; reflexivity).
    replace (Z.of_nat slice)
      with (Z.of_nat (length (widths_of slices0 ++ [w + remaining])))
      by (rewrite length_app; cbn [length]; lia).
    rewrite store_app_length, <- Hwidths.
    repeat split; try assumption; try lia.
    + intros E. apply (f_equal (@length (Z * list Z))) in E.
      rewrite length_app in E. cbn in E. lia.
    + apply compute_selector_spec; [now apply widths_ok | lia].
    + rewrite Henc in Hlen'. rewrite Hwidths. rewrite !length_app in *.
      cbn [length] in *. lia.
    + rewrite Hpay. apply lanes_ext. intros word _. rewrite Hlane.
      change (2 ^ 0) with 1. lia.
    + rewrite Hval'. exact Hval.
Qed.

(** *** The whole stream *)

Lemma decode_loop_more_fuel (mem : list Z) (end_of_source : Z) (fuel : nat) :
  forall (fuel' : nat) (selector : Z) (payload1 payload2 : list Z) (source : Z)
         (decoded : list Z),
    decode_loop fuel selector payload1 payload2 mem source end_of_source
    = Some decoded ->
    (fuel <= fuel')%nat ->
    decode_loop fuel' selector payload1 payload2 mem source end_of_source
    = Some decoded.
Proof.
  induction fuel as [|fuel IH]; intros fuel' selector payload1 payload2 source decoded
                                      Hrun Hle; [discriminate|].
  destruct fuel' as [|fuel']; [lia|].
  cbn [decode_loop] in *.
  assert (Hbody : forall s p1 p2 src stored,
             match decode_loop fuel s p1 p2 mem src end_of_source with
             | Some rest => Some (stored ++ rest)
             | None => None
             end = Some decoded ->
             match decode_loop fuel' s p1 p2 mem src end_of_source with
             | Some rest => Some (stored ++ rest)
             | None => None
             end = Some decoded).
  { intros s p1 p2 src stored H.
    destruct (decode_loop fuel s p1 p2 mem src end_of_source) as [rest|] eqn:E;
      [|discriminate].
    rewrite (IH fuel' _ _ _ _ rest E) by lia. exact H. }
  destruct (selector =? 0); [destruct (source >=? end_of_source)|].
  - exact Hrun.
  - apply Hbody, Hrun.
  - apply Hbody, Hrun.
Qed.

Lemma decode_loop_load (mem : list Z) (source end_of_source : Z) (fuel : nat)
    (payload1 payload2 : list Z) :
  source < end_of_source -> load32 mem source <> 0 ->
  decode_loop (S fuel) 0 payload1 payload2 mem source end_of_source
  = decode_loop (S fuel) (load32 mem source)
      (_mm256_loadu_si256 mem (source + 4))
      (_mm256_loadu_si256 mem (source + 36)) mem (source + 68) end_of_source.
Proof.
  intros Hlt Hnz. cbn [decode_loop]. change (0 =? 0) with true. cbn iota.
  destruct (Z.geb_spec source end_of_source); [lia|].
  destruct (Z.eqb_spec (load32 mem source) 0); [contradiction | reflexivity].
Qed.

Lemma decode_loop_end (mem : list Z) (source end_of_source : Z) (fuel : nat)
    (payload1 payload2 : list Z) :
  end_of_source <= source ->
  decode_loop (S fuel) 0 payload1 payload2 mem source end_of_source = Some [].
Proof.
  intros Hge. cbn [decode_loop]. change (0 =? 0) with true. cbn iota.
  destruct (Z.geb_spec source end_of_source); [reflexivity | lia].
Qed.

(** Decoding one codeword that sits in memory after [pre]. *)
Lemma decode_codeword (pre rest : list Z) (slices : list (Z * list Z))
    (source end_of_source : Z) (extra : nat) (payload1 payload2 : list Z) :
  slices <> [] -> Forall slice_ok slices -> sumZ (widths_of slices) = 32 ->
  source = 4 * Z.of_nat (length pre) -> source < end_of_source ->
  let mem :=
    pre ++ (selector_of (widths_of slices)
              :: lanes (fun word => lane_payload word slices)) ++ rest in
  decode_loop (32 + S extra) 0 payload1 payload2 mem source end_of_source
  = option_map (app (values_of slices))
      (decode_loop (32 - length slices + S extra) 0 [] [] mem (source + 68)
         end_of_source).
Proof.
  intros Hne Hok Hsum Hsource Hlt mem.
  destruct (load_codeword pre rest (selector_of (widths_of slices))
              (fun word => lane_payload word slices) source Hsource)
    as (Hsel & Hlow & Hhigh).
  fold mem in Hsel, Hlow, Hhigh.
  pose proof (widths_ok slices Hok) as Hwok.
  assert (Hlen : (length slices <= 32)%nat).
  { pose proof (length_le_sum _ Hwok) as Hlen.
    unfold widths_of in Hlen at 1. rewrite length_map in Hlen. lia. }
  assert (Hnz : selector_of (widths_of slices) <> 0).
  { destruct slices as [|[w a] slices]; [contradiction|].
    inversion Hwok as [|? ? Hw Hrest]; subst.
    apply (find_first_set_bit_selector w _ Hw Hrest). }
  change (32 + S extra)%nat with (S (32 + extra)).
  rewrite decode_loop_load by (rewrite ?Hsel; assumption).
  rewrite Hsel, Hlow, Hhigh.
  replace (S (32 + extra))
    with (length (widths_of slices) + (32 - length slices + S extra))%nat
    by (unfold widths_of; rewrite length_map; lia).
  rewrite decode_loop_codeword by exact Hwok.
  rewrite unpack_slices; [reflexivity | exact Hok | lia | reflexivity].
Qed.

(** Decoding what [encode_frames] wrote gives the input back, padded with
    zeros to whole groups of 16. *)
Lemma encode_frames_roundtrip (fuel : nat) :
  forall (encodings : list Z) (destination cap : Z) (array : list Z)
         (bytes : Z) (words : list Z),
    length encodings = 33%nat -> Forall u32 array ->
    encode_frames fuel encodings destination cap array (Z.of_nat (length array))
    = Some (bytes, words) ->
    bytes <> 0 ->
    exists (k codewords : nat),
      (k <= 16)%nat
      /\ length words = (17 * codewords)%nat
      /\ bytes = destination + 4 * Z.of_nat (length words)
      /\ forall (pre payload1 payload2 : list Z),
          destination = 4 * Z.of_nat (length pre) ->
          decode_loop (32 * codewords + 1) 0 payload1 payload2 (pre ++ words)
            destination bytes
          = Some (array ++ repeat 0 k).
Proof.
  induction fuel as [|fuel IH];
    intros encodings destination cap array bytes words Hlen Hu Hrun Hbytes;
    [discriminate|].
  cbn [encode_frames] in Hrun.
  destruct (destination + 4 * (WORDS + 1 + 1) >? cap);
    [injection Hrun as <- _; contradiction|].
  pose proof (encode_codeword encodings array Hlen Hu) as Hcw.
  change (4 * WORDS) with 64 in Hrun.
  destruct (pack_slices 32 0 encodings _ WORD_WIDTH 0 array _)
    as [encodings' payload|slice encodings' payload remaining array' elements'].
  - (* the last codeword *)
    destruct Hcw as (slices & k & Hne & Hok & Hsum & Hsel & Hpay & Hval & Hk).
    injection Hrun as <- <-. subst payload.
    exists k, 1%nat. cbn [length]. rewrite length_lanes.
    repeat split; [exact Hk | lia |].
    intros pre payload1 payload2 Hdest.
    rewrite Hsel.
    pose proof (decode_codeword pre [] slices destination (destination + 4 + 64) 0
                  payload1 payload2 Hne Hok Hsum Hdest) as Hdec.
    rewrite app_nil_r in Hdec. cbn zeta in Hdec.
    change (32 * 1 + 1)%nat with (32 + 1)%nat.
    rewrite Hdec by lia.
    replace (32 - length slices + 1)%nat with (S (32 - length slices)) by lia.
    rewrite decode_loop_end by lia.
    cbn [option_map]. now rewrite app_nil_r, Hval.
  - (* a full codeword, and the rest of the input *)
    cbn zeta in Hcw.
    destruct Hcw as (slices & Hne & Hok & Hsum & Hsel & Hlen2 & Hpay & Hval & Helems
                     & Harray).
    subst elements'.
    destruct (encode_frames fuel _ (destination + 4 + 64) cap array' _)
      as [[bytes' rest]|] eqn:Hrest; [|discriminate].
    injection Hrun as -> <-.
    assert (Hu' : Forall u32 array').
    { rewrite Hval in Hu. now apply Forall_app in Hu. }
    destruct (IH _ _ _ _ _ _ Hlen2 Hu' Hrest Hbytes)
      as (k & codewords & Hk & Hwords & Hbytes' & Hdecode).
    exists k, (S codewords). subst payload.
    cbn [app length]. rewrite length_app, length_lanes.
    repeat split; [exact Hk | lia | lia |].
    intros pre payload1 payload2 Hdest.
    rewrite Hsel.
    pose proof (decode_codeword pre rest slices destination bytes (32 * codewords)
                  payload1 payload2 Hne Hok Hsum Hdest) as Hdec.
    cbn zeta in Hdec. cbn [app] in Hdec.
    replace (32 * S codewords + 1)%nat with (32 + S (32 * codewords))%nat by lia.
    rewrite Hdec by lia.
    specialize (Hdecode
                  (pre ++ selector_of (widths_of slices)
                        :: lanes (fun word => lane_payload word slices))
                  [] []).
    rewrite <- app_assoc in Hdecode.
    replace (destination + 4 + 64) with (destination + 68) in Hdecode by lia.
    rewrite (decode_loop_more_fuel _ _ _ _ _ _ _ _ _ (Hdecode ltac:(
               rewrite length_app; cbn [length]; rewrite length_lanes; lia)))
      by lia.
    cbn [option_map]. rewrite app_assoc, <- Hval. reflexivity.
Qed.

(** The byte count [encode_frames] returns depends on the capacity only
    through the overflow test: with [total] the offset just after the last
    codeword, it is 0 when fewer than [total + 4] bytes are available and
    [total] otherwise. *)
Lemma encode_frames_capacity (fuel : nat) :
  forall (encodings : list Z) (destination : Z) (array : list Z),
    length encodings = 33%nat -> Forall u32 array -> (length array < fuel)%nat ->
    exists total : Z,
      destination + 68 <= total
      /\ total <= destination + 68 * (Z.of_nat (length array) / 16 + 1)
      /\ forall cap : Z,
          exists words : list Z,
            encode_frames fuel encodings destination cap array
              (Z.of_nat (length array))
            = Some (if cap <? total + 4 then 0 else total, words)
            /\ (total + 4 <= cap -> total = destination + 4 * Z.of_nat (length words)).
Proof.
  induction fuel as [|fuel IH]; intros encodings destination array Hlen Hu Hfuel; [lia|].
  cbn [encode_frames].
  pose proof (encode_codeword encodings array Hlen Hu) as Hcw.
  change (4 * (WORDS + 1 + 1)) with 72. change (4 * WORDS) with 64.
  assert (Hdiv : 0 <= Z.of_nat (length array) / 16) by (apply Z.div_pos; lia).
  destruct (pack_slices 32 0 encodings _ WORD_WIDTH 0 array _)
    as [encodings' payload|slice encodings' payload remaining array' elements'].
  - destruct Hcw as (slices & k & _ & _ & _ & _ & Hpay & _).
    exists (destination + 68). repeat split; [lia | lia |]. intros cap.
    destruct (Z.gtb_spec (destination + 72) cap), (Z.ltb_spec cap (destination + 68 + 4));
      try lia.
    + exists []. split; [reflexivity | lia].
    + eexists. split; [f_equal; f_equal; lia|]. intros _.
      cbn [length]. rewrite Hpay, length_lanes. lia.
  - cbn zeta in Hcw.
    destruct Hcw as (slices & Hne & Hok & Hsum & Hsel & Hlen2 & Hpay & Hval & Helems
                     & Harray).
    subst elements'.
    assert (Hu' : Forall u32 array').
    { rewrite Hval in Hu. now apply Forall_app in Hu. }
    assert (Hshorter : Z.of_nat (length array)
                       = Z.of_nat (length slices) * 16 + Z.of_nat (length array')).
    { rewrite Hval at 1. rewrite length_app, length_values_of. lia. }
    assert (Hsome : (1 <= length slices)%nat).
    { destruct slices; [contradiction | cbn; lia]. }
    destruct (IH _ (destination + 4 + 64) array' Hlen2 Hu') as (total & Hlow & Hhigh & Hcap);
      [lia|].
    exists total.
    assert (Hmore : Z.of_nat (length array') / 16 + 1 <= Z.of_nat (length array) / 16).
    { rewrite Hshorter, (Z.add_comm (Z.of_nat (length slices) * 16)), Z.div_add by lia.
      lia. }
    repeat split; [lia | lia |]. intros cap.
    destruct (Hcap cap) as (words & Hrun & Hsize). rewrite Hrun.
    destruct (Z.gtb_spec (destination + 72) cap).
    + exists []. destruct (Z.ltb_spec cap (total + 4)); [|lia].
      split; [reflexivity | lia].
    + eexists. split; [reflexivity|]. intros Hroom.
      cbn [app length]. rewrite length_app, Hpay, length_lanes.
      specialize (Hsize Hroom). lia.
Qed.

Lemma u32_forallb (l : list Z) :
  forallb (fun x => (0 <=? x) && (x <? 2 ^ 32)) l = true -> Forall u32 l.
Proof.
  intros H. apply Forall_forall. intros x Hx.
  rewrite forallb_forall in H. specialize (H x Hx).
  apply andb_prop in H as [H1 H2]. unfold u32. lia.
Qed.

(** The second sequence of the codec's unit test. *)
Definition second_broken_sequence : list Z :=
  [1; 1; 1; 793; 1; 1; 1; 1; 2; 1; 5; 3; 2; 1; 5; 63;
   1; 2; 2; 1; 1; 1; 1; 1; 1; 1; 5; 6; 2; 4; 1; 2;
   1; 1; 1; 1; 4; 2; 1; 2; 2; 1; 1; 1; 3; 2; 2; 1;
   1; 1; 2; 3; 1; 1; 8; 1; 1; 21; 2; 9; 15; 27; 7; 4;
   2; 7; 1; 1; 2; 1; 1; 3; 2; 3; 1; 3; 3; 1; 2; 2;
   3; 1; 3; 1; 2; 1; 2; 4; 1; 1; 3; 10; 1; 2; 1; 1;
   6; 2; 1; 1; 3; 3; 7; 3; 2; 1; 2; 4; 3; 1; 2; 1;
   6; 2; 2; 1].

(** C1: for every sequence [src] of at most 1,000,000 32-bit unsigned
    integers, whenever encode succeeds (returns a nonzero byte count), decode
    of the bytes it wrote stores [src], followed by at most 16 padding
    integers (so the output buffer needs that much room beyond [src]); and
    encode does succeed when the buffer is large enough. *)
Theorem decode_encode_roundtrip (src : list Z) :
  Forall (fun x => 0 <= x < 2 ^ 32) src -> Z.of_nat (length src) <= 1000000 ->
  (forall (encoded_buffer_length bytes : Z) (encoded : list Z),
      encode encoded_buffer_length src (Z.of_nat (length src)) = Some (bytes, encoded) ->
      bytes <> 0 ->
      exists decoded : list Z,
        decode (Z.of_nat (length src)) encoded bytes = Some decoded
        /\ firstn (length src) decoded = src
        /\ (length decoded <= length src + 16)%nat)
  /\ (forall encoded_buffer_length : Z,
        68 * (Z.of_nat (length src) / 16 + 1) + 4 <= encoded_buffer_length ->
        exists (bytes : Z) (encoded : list Z),
          encode encoded_buffer_length src (Z.of_nat (length src))
          = Some (bytes, encoded)
          /\ bytes <> 0).
Proof.
  intros Hu _. split.
  - intros cap bytes encoded Hrun Hbytes. unfold encode in Hrun.
    destruct (encode_frames_roundtrip _ (repeat 0 33) 0 cap src bytes encoded
                eq_refl Hu Hrun Hbytes)
      as (k & codewords & Hk & Hwords & Hsize & Hdecode).
    specialize (Hdecode [] (repeat 0 8) (repeat 0 8) eq_refl). cbn [app] in Hdecode.
    exists (src ++ repeat 0 k). repeat split.
    + unfold decode. apply (decode_loop_more_fuel _ _ _ _ _ _ _ _ _ Hdecode).
      replace bytes with (Z.of_nat codewords * 68) by lia.
      rewrite Z.div_mul by discriminate. lia.
    + rewrite firstn_app, firstn_all, Nat.sub_diag. cbn [firstn].
      apply app_nil_r.
    + rewrite length_app, repeat_length. lia.
  - intros cap Hcap. unfold encode.
    destruct (encode_frames_capacity (S (Z.to_nat (Z.of_nat (length src))))
                (repeat 0 33) 0 src eq_refl Hu)
      as (total & Hlow & Hhigh & Hrun); [lia|].
    destruct (Hrun cap) as (words & Hwords & _).
    destruct (Z.ltb_spec cap (total + 4)); [lia|].
    exists total, words. split; [exact Hwords | lia].
Qed.

Lemma decode_encode_roundtrip_witness :
  exists (bytes : Z) (encoded decoded : list Z),
    encode 1000 second_broken_sequence 116 = Some (bytes, encoded)
    /\ decode 116 encoded bytes = Some decoded
    /\ firstn 116 decoded = second_broken_sequence.
Proof.
  destruct (decode_encode_roundtrip second_broken_sequence) as [Hroundtrip _].
  - apply u32_forallb. vm_compute. reflexivity.
  - change (116 <= 1000000). lia.
  - change 116 with (Z.of_nat (length second_broken_sequence)).
    destruct (encode 1000 second_broken_sequence
                (Z.of_nat (length second_broken_sequence)))
      as [[bytes encoded]|] eqn:E; [|vm_compute in E; discriminate E].
    assert (Hbytes : bytes <> 0).
    { vm_compute in E. injection E as <- _. discriminate. }
    destruct (Hroundtrip 1000 bytes encoded E Hbytes) as (decoded & Hd & Hf & _).
    exists bytes, encoded, decoded. repeat split; assumption.
Defined.

(** C6 (as amended): encode returns 0 exactly when encoded_buffer_length is
    less than the size of the encoded output plus 4 bytes (before each
    68-byte codeword it asks for room for 72 bytes), so in particular
    whenever the output does not fit; otherwise it returns the number of
    bytes written, which is never 0 and is at most
    encoded_buffer_length - 4. *)
Theorem encode_overflow_contract (src : list Z) :
  Forall (fun x => 0 <= x < 2 ^ 32) src ->
  exists size : Z,
    0 < size
    /\ forall encoded_buffer_length : Z,
        exists (bytes : Z) (encoded : list Z),
          encode encoded_buffer_length src (Z.of_nat (length src))
          = Some (bytes, encoded)
          /\ (bytes = 0 <-> encoded_buffer_length < size + 4)
          /\ (encoded_buffer_length < size -> bytes = 0)
          /\ (bytes <> 0 ->
              bytes = size
              /\ bytes = 4 * Z.of_nat (length encoded)
              /\ bytes <= encoded_buffer_length - 4).
Proof.
  intros Hu. unfold encode.
  destruct (encode_frames_capacity (S (Z.to_nat (Z.of_nat (length src))))
              (repeat 0 33) 0 src eq_refl Hu)
    as (total & Hlow & Hhigh & Hrun); [lia|].
  exists total. split; [lia|]. intros cap.
  destruct (Hrun cap) as (words & Hwords & Hsize).
  eexists _, words. split; [exact Hwords|].
  destruct (Z.ltb_spec cap (total + 4)); repeat split; intros; try lia.
Qed.

Lemma encode_overflow_contract_witness :
  exists size : Z,
    0 < size
    /\ forall encoded_buffer_length : Z,
        exists (bytes : Z) (encoded : list Z),
          encode encoded_buffer_length [1; 2; 3] 3 = Some (bytes, encoded)
          /\ (bytes = 0 <-> encoded_buffer_length < size + 4)
          /\ (encoded_buffer_length < size -> bytes = 0)
          /\ (bytes <> 0 ->
              bytes = size
              /\ bytes = 4 * Z.of_nat (length encoded)
              /\ bytes <= encoded_buffer_length - 4).
Proof.
  apply (encode_overflow_contract [1; 2; 3]).
  repeat constructor; lia.
Defined.

(** C6 as stated fails: the encoding of [[1]] takes 68 bytes (17 words), yet
    a buffer of exactly 68 bytes, which can hold it, is refused with 0. *)
Lemma encode_refuses_exact_fit :
  (exists encoded : list Z,
      encode 72 [1] 1 = Some (68, encoded)
      /\ 4 * Z.of_nat (length encoded) = 68)
  /\ encode 68 [1] 1 = Some (0, []).
Proof. split; [eexists; split; reflexivity | reflexivity]. Qed.

End codec_properties.

(** * Further properties of the same code *)

(** ** pointer_box: the comparison operators as an order *)
Section pointer_box_order.
Import pointer_box.
Variable memory : Z -> Z.

Ltac box_cases :=
  repeat match goal with
         | x : pointer_box |- _ => destruct x
         end;
  unfold lt, gt, le, ge, eq, ne, compare, deref; cbn [element];
  rewrite ?Z.gtb_ltb, ?Z.geb_leb;
  repeat match goal with
         | |- context [memory ?a] =>
             let v := fresh "v" in
             let E := fresh "E" in
             remember (memory a) as v eqn:E
         end;
  repeat match goal with
         | |- context [?x <? ?y] => destruct (Z.ltb_spec x y)
         | |- context [?x <=? ?y] => destruct (Z.leb_spec x y)
         | |- context [?x =? ?y] => destruct (Z.eqb_spec x y)
         end;
  cbn [orb andb negb].

(** [operator<] is a strict total order on boxes over one memory (what
    std::sort and the ordered containers need), [operator>] is its converse,
    [operator==] and [operator!=] are equality of the pointers and its
    negation, and [compare] is antisymmetric. *)
Theorem lt_is_a_strict_total_order :
  (forall x, lt memory x x = false)
  /\ (forall x y z,
        lt memory x y = true -> lt memory y z = true -> lt memory x z = true)
  /\ (forall x y, lt memory x y = true \/ x = y \/ lt memory y x = true)
  /\ (forall x y, lt memory x y = true -> lt memory y x = false)
  /\ (forall x y, gt memory x y = lt memory y x)
  /\ (forall x y, eq memory x y = true <-> x = y)
  /\ (forall x y, ne memory x y = negb (eq memory x y))
  /\ (forall x y, compare memory x y = - compare memory y x).
Proof.
  split; [|split; [|split; [|split; [|split; [|split; [|split]]]]]].
  - intros x. box_cases; reflexivity || lia.
  - intros x y z. box_cases; intros; subst;
      first [reflexivity | discriminate | lia | congruence].
  - intros x y. box_cases; subst;
      first [ left; reflexivity | right; right; reflexivity
            | right; left; f_equal; lia | lia | congruence ].
  - intros x y. box_cases; intros; subst;
      first [reflexivity | discriminate | lia | congruence].
  - intros x y. box_cases; subst; first [reflexivity | lia | congruence].
  - intros [ex] [ey]. unfold eq, deref. cbn [element]. split.
    + intros H. apply andb_prop in H as [H _]. apply Z.eqb_eq in H. now subst.
    + intros [= ->]. now rewrite !Z.eqb_refl.
  - intros x y. box_cases; subst; first [reflexivity | lia | congruence].
  - intros x y. box_cases; subst; first [reflexivity | lia | congruence].
Qed.

(** [operator<=] and [operator>=] test the pointees with [<=] and [>=]
    before the tie-break, so the addresses never matter: [a <= b] exactly
    when [*a <= *b].  Two different boxes with equal pointees are therefore
    [<=] each other although one of them is [<] the other. *)
Theorem le_ignores_the_addresses :
  (forall x y, le memory x y = (deref memory x <=? deref memory y))
  /\ (forall x y, ge memory x y = (deref memory x >=? deref memory y))
  /\ (forall x y,
        x <> y -> deref memory x = deref memory y ->
        le memory x y = true /\ le memory y x = true
        /\ (lt memory x y = true \/ lt memory y x = true)).
Proof.
  split; [|split].
  - intros x y. box_cases; subst; first [reflexivity | lia | congruence].
  - intros x y. box_cases; subst; first [reflexivity | lia | congruence].
  - intros x y Hne Hv. repeat split; revert Hne Hv.
    + box_cases; intros; subst; first [reflexivity | lia | congruence].
    + box_cases; intros; subst; first [reflexivity | lia | congruence].
    + box_cases; intros Hne Hv; subst;
        first [ left; reflexivity | right; reflexivity
              | exfalso; apply Hne; f_equal; lia | lia | congruence ].
Qed.

End pointer_box_order.

Lemma le_ignores_the_addresses_witness :
  let memory := pointer_box.array_memory 1000 [6; 3; 6] in
  let a := pointer_box.address_of 1000 0 in
  let c := pointer_box.address_of 1000 2 in
  pointer_box.le memory a c = true /\ pointer_box.le memory c a = true
  /\ (pointer_box.lt memory a c = true \/ pointer_box.lt memory c a = true).
Proof.
  intros memory a c.
  destruct (le_ignores_the_addresses memory) as (_ & _ & H).
  apply H; [discriminate | reflexivity].
Defined.

Lemma lt_is_a_strict_total_order_witness :
  let memory := pointer_box.array_memory 1000 [6; 3; 6] in
  let a := pointer_box.address_of 1000 0 in
  let b := pointer_box.address_of 1000 1 in
  let c := pointer_box.address_of 1000 2 in
  pointer_box.lt memory b c = true.
Proof.
  intros memory a b c.
  destruct (lt_is_a_strict_total_order memory) as (_ & Htrans & _).
  apply (Htrans b a c); reflexivity.
Defined.

(** ** quantize: the bounds enclose every observed score *)
Section quantizer_enclosure.
Import quantize.

Lemma SFltb_leb (x y : spec_float) : SFltb x y = true -> SFleb x y = true.
Proof.
  unfold SFltb, SFleb. destruct (SFcompare x y) as [[| |]|]; intros H;
    first [reflexivity | discriminate H].
Qed.

(** The order of doubles, as far as the quantizer needs it. *)
Lemma double_le_refl (x : float) :
  PrimFloat.is_nan x = false -> (x <=? x)%float = true.
Proof.
  intros H. rewrite FloatAxioms.leb_spec. apply SFleb_refl. now apply number_spec.
Qed.

Lemma double_le_trans (x y z : float) :
  (x <=? y)%float = true -> (y <=? z)%float = true -> (x <=? z)%float = true.
Proof. rewrite !FloatAxioms.leb_spec. apply SFleb_trans. Qed.

Lemma double_lt_le (x y : float) : (x <? y)%float = true -> (x <=? y)%float = true.
Proof. rewrite FloatAxioms.ltb_spec, FloatAxioms.leb_spec. apply SFltb_leb. Qed.

Lemma double_not_lt_le (x y : float) :
  PrimFloat.is_nan x = false -> PrimFloat.is_nan y = false ->
  (x <? y)%float = false -> (y <=? x)%float = true.
Proof.
  intros Hx Hy. rewrite FloatAxioms.ltb_spec, FloatAxioms.leb_spec.
  apply SFleb_total; now apply number_spec.
Qed.

Variable RANKER : Type.
Variable compute_idf_component : Z -> Z -> RANKER -> RANKER.
Variable compute_tf_component : Z -> RANKER -> RANKER.
Variable compute_score : Z -> Z -> RANKER -> float.
Hypothesis score_is_a_number :
  forall document term_frequency r,
    PrimFloat.is_nan (compute_score document term_frequency r) = false.

(** The scores the loop of pass A computes, in order. *)
Fixpoint observed_scores (todo : list Z) (document_ids term_frequencies : list Z)
    (r : RANKER) : list float :=
  match todo with
  | [] => []
  | current :: todo' =>
      let r := compute_tf_component (at_ term_frequencies current) r in
      compute_score (uint32_t (at_ document_ids current - 1))
        (at_ term_frequencies current) r
        :: observed_scores todo' document_ids term_frequencies r
  end.

Lemma observe_loop_encloses (todo : list Z) (document_ids term_frequencies : list Z) :
  forall q : quantize RANKER,
    numbers RANKER q ->
    let q' := observe_loop RANKER compute_tf_component compute_score todo
                document_ids term_frequencies q in
    numbers RANKER q'
    /\ (smallest_rsv RANKER q' <=? smallest_rsv RANKER q)%float = true
    /\ (largest_rsv RANKER q <=? largest_rsv RANKER q')%float = true
    /\ Forall (fun score =>
                 (smallest_rsv RANKER q' <=? score)%float = true
                 /\ (score <=? largest_rsv RANKER q')%float = true)
         (observed_scores todo document_ids term_frequencies (ranker RANKER q)).
Proof.
  induction todo as [|current todo IH]; intros q [Hs Hl]; cbn zeta;
    cbn [observe_loop observed_scores].
  - repeat split; try assumption; try constructor; now apply double_le_refl.
  - set (r := compute_tf_component (at_ term_frequencies current) (ranker RANKER q)).
    set (score := compute_score (uint32_t (at_ document_ids current - 1))
                    (at_ term_frequencies current) r).
    assert (Hx : PrimFloat.is_nan score = false) by apply score_is_a_number.
    set (q1 := Build_quantize _ _ _ _ _).
    assert (H1 : numbers RANKER q1
                 /\ (smallest_rsv RANKER q1 <=? smallest_rsv RANKER q)%float = true
                 /\ (largest_rsv RANKER q <=? largest_rsv RANKER q1)%float = true
                 /\ (smallest_rsv RANKER q1 <=? score)%float = true
                 /\ (score <=? largest_rsv RANKER q1)%float = true).
    { unfold q1, numbers. cbn [smallest_rsv largest_rsv].
      destruct (score <? smallest_rsv RANKER q)%float eqn:E1,
               (largest_rsv RANKER q <? score)%float eqn:E2;
        repeat split; try assumption;
        first [ now apply double_le_refl | now apply double_lt_le
              | now apply double_not_lt_le ]. }
    destruct H1 as (Hn1 & Hs1 & Hl1 & Hlow & Hhigh).
    destruct (IH q1 Hn1) as (Hn' & Hs' & Hl' & Hall). cbn zeta in *.
    change (ranker RANKER q1) with r in Hall.
    repeat split; try apply Hn'.
    + now apply double_le_trans with (y := smallest_rsv RANKER q1).
    + now apply double_le_trans with (y := largest_rsv RANKER q1).
    + constructor; [|exact Hall]. split.
      * now apply double_le_trans with (y := smallest_rsv RANKER q1).
      * now apply double_le_trans with (y := largest_rsv RANKER q1).
Qed.

(** After pass A on a fresh quantizer (with a ranker that never yields
    NaN) every score it computed lies between smallest_rsv and largest_rsv.
    largest_rsv starts at numeric_limits<double>::min(), the smallest
    positive normal double, so it never ends below that value, even when
    every score is smaller (zero or negative). *)
Theorem observe_encloses_scores
    (documents : Z) (r : RANKER)
    (document_frequency : Z) (document_ids term_frequencies : list Z) :
  let q :=
    observe RANKER compute_idf_component compute_tf_component compute_score
      document_frequency document_ids term_frequencies (new RANKER documents r) in
  Forall (fun score =>
            (smallest_rsv RANKER q <=? score)%float = true
            /\ (score <=? largest_rsv RANKER q)%float = true)
    (observed_scores (indices document_frequency) document_ids term_frequencies
       (compute_idf_component document_frequency (uint32_t documents) r))
  /\ (double_min <=? largest_rsv RANKER q)%float = true
  /\ (smallest_rsv RANKER q <=? double_max)%float = true.
Proof.
  intros q. unfold q, observe. cbn [new largest_rsv smallest_rsv ranker
                                     documents_in_collection].
  match goal with
  | |- context [observe_loop _ _ _ _ _ _ ?q0] =>
      destruct (observe_loop_encloses (indices document_frequency) document_ids
                  term_frequencies q0) as (_ & Hs & Hl & Hall)
  end; [split; reflexivity|].
  cbn zeta in *. cbn [smallest_rsv largest_rsv ranker] in Hs, Hl, Hall.
  repeat split; assumption.
Qed.

End quantizer_enclosure.

Lemma observe_encloses_scores_witness :
  let q := quantize.observe unit tf_idf_component tf_tf_component
             (fun _ _ _ => (-2)%float) 2 [1; 2] [3; 3] (quantize.new unit 2 tt) in
  (quantize.double_min <=? quantize.largest_rsv unit q)%float = true
  /\ (quantize.smallest_rsv unit q <=? quantize.double_max)%float = true.
Proof.
  apply (observe_encloses_scores unit tf_idf_component tf_tf_component
           (fun _ _ _ => (-2)%float)).
  intros. reflexivity.
Defined.

(** With scores that are all negative the upper bound stays at the
    smallest positive double: it is not the largest score. *)
Example largest_rsv_of_negative_scores :
  let q := quantize.observe unit tf_idf_component tf_tf_component
             (fun _ _ _ => (-2)%float) 2 [1; 2] [3; 3] (quantize.new unit 2 tt) in
  quantize.get_bounds unit q = ((-2)%float, quantize.double_min).
Proof. vm_compute. reflexivity. Qed.

(** ** The codec: what encode writes *)
Section codec_output.
Import compress_integer_elias_gamma_simd_vb.

(** Row [width] of the table [mask_set] is 16 times the mask of the low
    [width] bits, for every width from 0 to 32. *)
Theorem mask_set_is_low_bits (width : Z) :
  0 <= width <= 32 -> mask_set width = repeat (2 ^ width - 1) 16.
Proof.
  intros H. unfold mask_set. rewrite mask_values_ones by exact H.
  rewrite Z.ones_equiv. f_equal.
Qed.

Lemma mask_set_is_low_bits_witness :
  mask_set 10 = repeat (2 ^ 10 - 1) 16.
Proof. apply (mask_set_is_low_bits 10). lia. Defined.

(** The 17 words of a codeword that holds the given slices. *)
Definition codeword_of (slices : list (Z * list Z)) : list Z :=
  selector_of (widths_of slices) :: lanes (fun word => lane_payload word slices).

Definition full (slices : list (Z * list Z)) : Prop :=
  slices <> [] /\ Forall slice_ok slices /\ sumZ (widths_of slices) = 32.

(** What [encode_frames] wrote, codeword by codeword. *)
Lemma encode_frames_codewords (fuel : nat) :
  forall (encodings : list Z) (destination cap : Z) (array : list Z)
         (bytes : Z) (words : list Z),
    length encodings = 33%nat -> Forall u32 array ->
    encode_frames fuel encodings destination cap array (Z.of_nat (length array))
    = Some (bytes, words) ->
    bytes <> 0 ->
    exists (codewords : list (list (Z * list Z))) (k : nat),
      codewords <> [] /\ Forall full codewords
      /\ words = concat (map codeword_of codewords)
      /\ concat (map values_of codewords) = array ++ repeat 0 k
      /\ (k <= 16)%nat
      /\ bytes = destination + 68 * Z.of_nat (length codewords).
Proof.
  induction fuel as [|fuel IH];
    intros encodings destination cap array bytes words Hlen Hu Hrun Hbytes;
    [discriminate|].
  cbn [encode_frames] in Hrun.
  destruct (destination + 4 * (WORDS + 1 + 1) >? cap);
    [injection Hrun as <- _; contradiction|].
  pose proof (encode_codeword encodings array Hlen Hu) as Hcw.
  change (4 * WORDS) with 64 in Hrun.
  destruct (pack_slices 32 0 encodings _ WORD_WIDTH 0 array _)
    as [encodings' payload|slice encodings' payload remaining array' elements'].
  - destruct Hcw as (slices & k & Hne & Hok & Hsum & Hsel & Hpay & Hval & Hk).
    injection Hrun as <- <-. subst payload.
    exists [slices], k. cbn [map concat length]. rewrite !app_nil_r, Hsel.
    repeat split; try assumption; try lia; try discriminate.
    constructor; [|constructor]. repeat split; assumption.
  - cbn zeta in Hcw.
    destruct Hcw as (slices & Hne & Hok & Hsum & Hsel & Hlen2 & Hpay & Hval & Helems
                     & Harray).
    subst elements'.
    destruct (encode_frames fuel _ (destination + 4 + 64) cap array' _)
      as [[bytes' rest]|] eqn:Hrest; [|discriminate].
    injection Hrun as -> <-. subst payload.
    assert (Hu' : Forall u32 array').
    { rewrite Hval in Hu. now apply Forall_app in Hu. }
    destruct (IH _ _ _ _ _ _ Hlen2 Hu' Hrest Hbytes)
      as (codewords & k & Hne' & Hfull & Hwords & Hvalues & Hk & Hsize).
    exists (slices :: codewords), k. cbn [map concat length]. rewrite Hsel.
    repeat split; try assumption; try lia; try discriminate.
    + constructor; [repeat split; assumption | exact Hfull].
    + rewrite Hwords. reflexivity.
    + rewrite Hvalues, Hval, app_assoc. reflexivity.
Qed.

Lemma selector_of_top_bit (widths : list Z) :
  widths <> [] -> Forall width_ok widths ->
  2 ^ (sumZ widths - 1) <= selector_of widths.
Proof.
  intros Hne Hok. induction Hok as [|w rest Hw Hrest IH]; [contradiction|].
  cbn [selector_of sumZ fold_right]. fold (sumZ rest).
  unfold width_ok in Hw.
  destruct (selector_of_bounds rest Hrest) as [Hsel Hnonneg].
  pose proof (pow2_pos (w - 1)). pose proof (pow2_pos w).
  destruct rest as [|w' rest'].
  - cbn [sumZ fold_right selector_of]. rewrite Z.add_0_r. lia.
  - specialize (IH ltac:(discriminate)).
    assert (Hpos : 1 <= sumZ (w' :: rest')).
    { inversion Hrest as [|? ? Hw' Hrest']; subst. unfold width_ok in Hw'.
      destruct (selector_of_bounds rest' Hrest') as [_ Hn].
      cbn [sumZ fold_right]. fold (sumZ rest'). lia. }
    replace (w + sumZ (w' :: rest') - 1) with (w + (sumZ (w' :: rest') - 1)) by lia.
    rewrite pow2_split by lia.
    pose proof (pow2_pos (sumZ (w' :: rest') - 1)). nia.
Qed.

(** A codeword as encode writes it. *)
Definition codeword_ok (codeword : list Z) : Prop :=
  length codeword = 17%nat
  /\ Forall (fun word => 0 <= word < 2 ^ 32) codeword
  /\ 2 ^ 31 <= hd 0 codeword
  /\ Forall (fun w => 1 <= w <= 32) (selector_widths (hd 0 codeword))
  /\ sumZ (selector_widths (hd 0 codeword)) = 32.

Lemma codeword_of_ok (slices : list (Z * list Z)) :
  full slices -> codeword_ok (codeword_of slices).
Proof.
  intros (Hne & Hok & Hsum). unfold codeword_ok, codeword_of. cbn [hd length].
  pose proof (widths_ok slices Hok) as Hwok.
  destruct (selector_of_bounds _ Hwok) as [Hsel _]. rewrite Hsum in Hsel.
  assert (Hwne : widths_of slices <> []).
  { destruct slices; [contradiction | discriminate]. }
  pose proof (selector_of_top_bit _ Hwne Hwok) as Htop. rewrite Hsum in Htop.
  assert (Hwidths : selector_widths (selector_of (widths_of slices)) = widths_of slices).
  { apply width_extraction_selector; [exact Hwok|].
    pose proof (length_le_sum _ Hwok). lia. }
  rewrite Hwidths, length_lanes.
  repeat split; try assumption; try lia.
  constructor; [lia|]. unfold lanes. apply Forall_map, Forall_forall.
  intros word Hin. apply in_indices in Hin.
  pose proof (lane_payload_bounds word slices Hin Hok) as Hb. rewrite Hsum in Hb. lia.
Qed.

(** A successful encode writes whole codewords of 17 words, all of them
    32-bit values.  The selector of every codeword has its top bit set, so it
    is never 0 (row 0 of mask_set is never used on encoder output), and the
    widths it holds are between 1 and 32 and add up to exactly 32. *)
Theorem encode_writes_whole_codewords
    (src : list Z) (encoded_buffer_length bytes : Z) (encoded : list Z) :
  Forall (fun x => 0 <= x < 2 ^ 32) src ->
  encode encoded_buffer_length src (Z.of_nat (length src)) = Some (bytes, encoded) ->
  bytes <> 0 ->
  exists codewords : list (list Z),
    encoded = concat codewords
    /\ Forall codeword_ok codewords
    /\ bytes = 68 * Z.of_nat (length codewords).
Proof.
  intros Hu Hrun Hbytes. unfold encode in Hrun.
  destruct (encode_frames_codewords _ (repeat 0 33) 0 encoded_buffer_length src bytes
              encoded eq_refl Hu Hrun Hbytes)
    as (codewords & k & _ & Hfull & Hwords & _ & _ & Hsize).
  exists (map codeword_of codewords). rewrite length_map.
  repeat split; [exact Hwords | | lia].
  apply Forall_map. eapply Forall_impl; [|exact Hfull].
  intros slices. apply codeword_of_ok.
Qed.

Lemma encode_writes_whole_codewords_witness :
  exists codewords : list (list Z),
    snd (match encode 1000 second_broken_sequence 116 with
         | Some r => r
         | None => (0, [])
         end) = concat codewords
    /\ Forall codeword_ok codewords.
Proof.
  destruct (encode 1000 second_broken_sequence 116) as [[bytes encoded]|] eqn:E;
    [|vm_compute in E; discriminate E].
  assert (Hbytes : bytes <> 0).
  { vm_compute in E. injection E as <- _. discriminate. }
  destruct (encode_writes_whole_codewords second_broken_sequence 1000 bytes encoded)
    as (codewords & Hwords & Hok & _).
  - apply u32_forallb. vm_compute. reflexivity.
  - exact E.
  - exact Hbytes.
  - exists codewords. split; assumption.
Defined.

Lemma length_concat_values (codewords : list (list (Z * list Z))) :
  Forall full codewords ->
  16 * Z.of_nat (length codewords)
  <= Z.of_nat (length (concat (map values_of codewords)))
  <= 512 * Z.of_nat (length codewords).
Proof.
  induction 1 as [|slices codewords (Hne & Hok & Hsum) _ IH]; [cbn; lia|].
  cbn [map concat length]. rewrite length_app, length_values_of.
  pose proof (length_le_sum _ (widths_ok slices Hok)) as Hlen.
  unfold widths_of in Hlen at 1. rewrite length_map in Hlen.
  assert (1 <= length slices)%nat by (destruct slices; [contradiction | cbn; lia]).
  lia.
Qed.

(** The size of the encoding of [n] integers: a multiple of 68 bytes, at
    least one codeword per 512 integers (32 slices of width 1) and at most
    one codeword per 16 integers plus one. *)
Theorem encoded_size_bounds
    (src : list Z) (encoded_buffer_length bytes : Z) (encoded : list Z) :
  Forall (fun x => 0 <= x < 2 ^ 32) src ->
  encode encoded_buffer_length src (Z.of_nat (length src)) = Some (bytes, encoded) ->
  bytes <> 0 ->
  exists codewords : Z,
    bytes = 68 * codewords
    /\ 1 <= codewords
    /\ Z.of_nat (length src) <= 512 * codewords
    /\ 16 * (codewords - 1) <= Z.of_nat (length src).
Proof.
  intros Hu Hrun Hbytes. unfold encode in Hrun.
  destruct (encode_frames_codewords _ (repeat 0 33) 0 encoded_buffer_length src bytes
              encoded eq_refl Hu Hrun Hbytes)
    as (codewords & k & Hne & Hfull & _ & Hvalues & Hk & Hsize).
  pose proof (length_concat_values codewords Hfull) as Hlen.
  rewrite Hvalues, length_app, repeat_length in Hlen.
  exists (Z.of_nat (length codewords)).
  assert (1 <= length codewords)%nat by (destruct codewords; [contradiction | cbn; lia]).
  repeat split; lia.
Qed.

Lemma encoded_size_bounds_witness :
  exists codewords : Z,
    fst (match encode 1000 second_broken_sequence 116 with
         | Some r => r
         | None => (0, [])
         end) = 68 * codewords
    /\ 116 <= 512 * codewords /\ 16 * (codewords - 1) <= 116.
Proof.
  destruct (encode 1000 second_broken_sequence 116) as [[bytes encoded]|] eqn:E;
    [|vm_compute in E; discriminate E].
  assert (Hbytes : bytes <> 0).
  { vm_compute in E. injection E as <- _. discriminate. }
  destruct (encoded_size_bounds second_broken_sequence 1000 bytes encoded)
    as (codewords & Hsize & _ & Hlow & Hhigh).
  - apply u32_forallb. vm_compute. reflexivity.
  - exact E.
  - exact Hbytes.
  - exists codewords. repeat split; assumption.
Defined.

Lemma encode_frames_prefix (fuel : nat) :
  forall (encodings : list Z) (destination cap cap' : Z) (array : list Z)
         (elements bytes bytes' : Z) (words words' : list Z),
    cap <= cap' ->
    encode_frames fuel encodings destination cap array elements = Some (bytes, words) ->
    encode_frames fuel encodings destination cap' array elements = Some (bytes', words') ->
    exists later : list Z,
      words' = words ++ later /\ (bytes <> 0 -> bytes' = bytes /\ later = []).
Proof.
  induction fuel as [|fuel IH];
    intros encodings destination cap cap' array elements bytes bytes' words words'
           Hcap Hrun Hrun'; [discriminate|].
  cbn [encode_frames] in Hrun, Hrun'.
  destruct (Z.gtb_spec (destination + 4 * (WORDS + 1 + 1)) cap).
  - injection Hrun as <- <-. exists words'. split; [reflexivity | contradiction].
  - destruct (Z.gtb_spec (destination + 4 * (WORDS + 1 + 1)) cap'); [lia|].
    destruct (pack_slices 32 0 encodings _ WORD_WIDTH 0 array elements)
      as [encodings' payload|slice encodings' payload remaining array' elements'].
    + injection Hrun as <- <-. injection Hrun' as <- <-.
      exists []. rewrite app_nil_r. repeat split.
    + destruct (encode_frames fuel _ _ cap array' elements')
        as [[b rest]|] eqn:E; [|discriminate].
      destruct (encode_frames fuel _ _ cap' array' elements')
        as [[b' rest']|] eqn:E'; [|discriminate].
      injection Hrun as <- <-. injection Hrun' as <- <-.
      destruct (IH _ _ _ _ _ _ _ _ _ _ Hcap E E') as (later & Hlater & Hsame).
      exists later. split; [|exact Hsame].
      rewrite Hlater. cbn [app]. now rewrite app_assoc.
Qed.

(** A successful encode writes the same words whatever the capacity, and a
    failed one (return value 0) has already written the leading codewords of
    that output: the buffer is not left untouched on overflow. *)
Theorem encode_overflow_writes_a_prefix
    (src : list Z) (elements cap cap' bytes bytes' : Z) (encoded encoded' : list Z) :
  cap <= cap' ->
  encode cap src elements = Some (bytes, encoded) ->
  encode cap' src elements = Some (bytes', encoded') ->
  exists later : list Z,
    encoded' = encoded ++ later /\ (bytes <> 0 -> bytes' = bytes /\ later = []).
Proof. unfold encode. apply encode_frames_prefix. Qed.

Lemma encode_overflow_writes_a_prefix_witness :
  exists later : list Z,
    snd (match encode 1000 second_broken_sequence 116 with
         | Some r => r
         | None => (0, [])
         end)
    = snd (match encode 100 second_broken_sequence 116 with
           | Some r => r
           | None => (0, [])
           end) ++ later.
Proof.
  destruct (encode 100 second_broken_sequence 116) as [[b w]|] eqn:E;
    [|vm_compute in E; discriminate E].
  destruct (encode 1000 second_broken_sequence 116) as [[b' w']|] eqn:E';
    [|vm_compute in E'; discriminate E'].
  destruct (encode_overflow_writes_a_prefix second_broken_sequence 116 100 1000
              b b' w w') as (later & Hlater & _);
    [lia | exact E | exact E' |].
  exists later. exact Hlater.
Defined.

End codec_output.

(** ** The codec: decode on codewords that encode did not write *)
Section decode_whole_codewords.
Import compress_integer_elias_gamma_simd_vb.

Lemma length_loadu (mem : list Z) (source : Z) :
  length (_mm256_loadu_si256 mem source) = 8%nat.
Proof. reflexivity. Qed.

Lemma length_and_si256 (a : list Z) (width : Z) :
  length a = 8%nat ->
  length (_mm256_and_si256 a (firstn 8 (mask_set width))) = 8%nat.
Proof.
  intros H. unfold _mm256_and_si256. rewrite length_map, length_combine, H.
  reflexivity.
Qed.

Lemma length_srli (a : list Z) (count : Z) :
  length (_mm256_srli_epi32 a count) = length a.
Proof. unfold _mm256_srli_epi32. apply length_map. Qed.

Lemma length_unpack (widths : list Z) :
  forall payload1 payload2 : list Z,
    length payload1 = 8%nat -> length payload2 = 8%nat ->
    length (unpack widths payload1 payload2) = (16 * length widths)%nat.
Proof.
  induction widths as [|w widths IH]; intros payload1 payload2 H1 H2; [reflexivity|].
  cbn [unpack length]. rewrite !length_app, !length_and_si256 by assumption.
  rewrite IH by (rewrite length_srli; assumption). lia.
Qed.

Lemma selector_widths_ok (selector : Z) :
  0 <= selector < 2 ^ 32 ->
  selector_of (selector_widths selector) = selector
  /\ Forall width_ok (selector_widths selector)
  /\ sumZ (selector_widths selector) <= 32.
Proof.
  intros Hsel. unfold selector_widths.
  destruct (width_extraction_inverse 32 selector 32) as (Hof & Hok & Hsum);
    [assumption | lia | lia |].
  repeat split; assumption.
Qed.

(** Whole codewords with nonzero selectors, whatever their words are: each
    costs one round per width of its selector, at least one and at most
    32. *)
Lemma decode_loop_whole_codewords (mem : list Z) (codewords : nat) :
  forall (source : Z) (payload1 payload2 : list Z),
    Forall u32 mem ->
    (forall k : nat,
        (k < codewords)%nat -> load32 mem (source + 68 * Z.of_nat k) <> 0) ->
    exists decoded : list Z,
      decode_loop (32 * codewords + 1) 0 payload1 payload2 mem source
        (source + 68 * Z.of_nat codewords)
      = Some decoded
      /\ (16 * codewords <= length decoded <= 512 * codewords)%nat
      /\ (length decoded mod 16 = 0)%nat.
Proof.
  induction codewords as [|codewords IH]; intros source payload1 payload2 Hu Hnz.
  - exists []. cbn [Nat.mul Nat.add]. rewrite decode_loop_end by lia.
    repeat split; cbn; lia.
  - destruct (IH (source + 68) [] [] Hu) as (rest & Hrest & Hlen & Hmod).
    { intros k Hk.
      replace (source + 68 + 68 * Z.of_nat k) with (source + 68 * Z.of_nat (S k))
        by lia.
      apply Hnz. lia. }
    replace (source + 68 + 68 * Z.of_nat codewords)
      with (source + 68 * Z.of_nat (S codewords)) in Hrest by lia.
    specialize (Hnz 0%nat ltac:(lia)).
    replace (source + 68 * Z.of_nat 0) with source in Hnz by lia.
    replace (32 * S codewords + 1)%nat with (S (32 + 32 * codewords)) by lia.
    rewrite decode_loop_load by (assumption || lia).
    pose proof (at_u32 mem (source / 4) Hu) as Hsel. fold (load32 mem source) in Hsel.
    remember (load32 mem source) as selector eqn:Hload.
    destruct (selector_widths_ok selector Hsel) as (Hof & Hok & Hsum).
    remember (selector_widths selector) as widths eqn:Hwidths.
    assert (Hsome : widths <> []) by (intros ->; apply Hnz; symmetry; exact Hof).
    pose proof (fun extra =>
                  decode_loop_codeword mem (source + 68)
                    (source + 68 * Z.of_nat (S codewords)) widths
                    (_mm256_loadu_si256 mem (source + 4))
                    (_mm256_loadu_si256 mem (source + 36)) extra Hok) as Hloop.
    rewrite Hof in Hloop.
    pose proof (length_le_sum _ Hok) as Hshort.
    assert (1 <= length widths)%nat by (destruct widths; [contradiction | cbn; lia]).
    replace (S (32 + 32 * codewords))
      with (length widths + (32 - length widths + (32 * codewords + 1)))%nat
      by lia.
    rewrite Hloop.
    rewrite (decode_loop_more_fuel _ _ _
               (32 - length widths + (32 * codewords + 1)) _ _ _ _ _ Hrest) by lia.
    eexists. split; [reflexivity|].
    rewrite length_app, length_unpack by apply length_loadu.
    split; [lia|].
    rewrite Nat.Div0.add_mod, Hmod, Nat.mul_comm, Nat.Div0.mod_mul by lia.
    reflexivity.
Qed.

(** decode returns on every source made of whole codewords with nonzero
    selectors, written by encode or not: it stops at the end of the source
    and nowhere else, having stored between 16 and 512 integers per codeword,
    whatever [integers_to_decode] is. *)
Theorem decode_stops_on_whole_codewords
    (integers_to_decode : Z) (source : list Z) (codewords : nat) :
  Forall u32 source ->
  length source = (17 * codewords)%nat ->
  (forall k : nat, (k < codewords)%nat -> at_ source (17 * Z.of_nat k) <> 0) ->
  exists decoded : list Z,
    decode integers_to_decode source (68 * Z.of_nat codewords) = Some decoded
    /\ (16 * codewords <= length decoded <= 512 * codewords)%nat
    /\ (length decoded mod 16 = 0)%nat.
Proof.
  intros Hu _ Hnz. unfold decode.
  destruct (decode_loop_whole_codewords source codewords 0
              (repeat 0 8) (repeat 0 8) Hu) as (decoded & Hrun & Hlen & Hmod).
  { intros k Hk. unfold load32.
    replace (0 + 68 * Z.of_nat k) with (17 * Z.of_nat k * 4) by lia.
    rewrite Z.div_mul by lia. apply Hnz, Hk. }
  exists decoded. split; [|split; assumption].
  apply (decode_loop_more_fuel _ _ _ _ _ _ _ _ _ Hrun).
  rewrite Z.mul_comm, Z.div_mul by lia. lia.
Qed.

End decode_whole_codewords.

Lemma decode_stops_on_whole_codewords_witness :
  exists decoded : list Z,
    compress_integer_elias_gamma_simd_vb.decode 3
      [8724; 1; 2; 3; 4; 5; 6; 7; 0; 0; 0; 0; 0; 0; 0; 0; 4294967295]
      (68 * Z.of_nat 1)
    = Some decoded
    /\ (16 * 1 <= length decoded <= 512 * 1)%nat
    /\ (length decoded mod 16 = 0)%nat.
Proof.
  apply (decode_stops_on_whole_codewords 3
           [8724; 1; 2; 3; 4; 5; 6; 7; 0; 0; 0; 0; 0; 0; 0; 0; 4294967295] 1%nat).
  - repeat constructor; unfold u32; lia.
  - reflexivity.
  - intros k Hk. replace k with 0%nat by lia. discriminate.
Defined.

(** ** index_postings: accumulating and rendering in general *)
Section postings_in_general.
Import index_postings.

(** A postings list as the caller builds it: for each document in turn, its
    id and the positions pushed for it. *)
Definition postings_of (groups : list (Z * list Z)) : list (Z * Z) :=
  flat_map (fun g => map (fun position => (fst g, position)) (snd g)) groups.

Definition occurrences (g : Z * list Z) : Z := Z.of_nat (length (snd g)).

(** Ids below 0xFFFFFFFF, at least one and at most 0xFFFF positions, each a
    32-bit value. *)
Definition group_ok (g : Z * list Z) : Prop :=
  0 <= fst g < 2 ^ 32 - 1
  /\ snd g <> [] /\ occurrences g <= 0xFFFF
  /\ Forall (fun position => 0 <= position < 2 ^ 32) (snd g).

(** Every document differs from the one before it, the first from
    [previous]. *)
Fixpoint new_documents (previous : Z) (groups : list (Z * list Z)) : Prop :=
  match groups with
  | [] => True
  | g :: rest => fst g <> previous /\ new_documents (fst g) rest
  end.

Lemma push_all_app (l1 l2 : list (Z * Z)) :
  forall p : index_postings,
    push_all (l1 ++ l2) p
    = match push_all l1 p with
      | Some p' => push_all l2 p'
      | None => None
      end.
Proof.
  induction l1 as [|[d x] l1 IH]; intros p; cbn [app push_all]; [reflexivity|].
  destruct (push_back d x p); [apply IH | reflexivity].
Qed.

Lemma uint32_small (x : Z) : 0 <= x < 2 ^ 32 -> uint32_t x = x.
Proof. intros H. unfold uint32_t. now apply Z.mod_small. Qed.

(** More occurrences of the current document. *)
Lemma push_same_document (xs : list Z) :
  forall (p : index_postings) (tfs : list Z) (tf : Z),
    term_frequencies p = tfs ++ [tf] -> 0 <= tf ->
    tf + Z.of_nat (length xs) <= 0xFFFF ->
    Forall (fun position => 0 <= position < 2 ^ 32) xs ->
    exists p',
      push_all (map (fun position => (highest_document p, position)) xs) p = Some p'
      /\ highest_document p' = highest_document p
      /\ document_ids p' = document_ids p
      /\ term_frequencies p' = tfs ++ [tf + Z.of_nat (length xs)]
      /\ positions p' = positions p ++ xs.
Proof.
  induction xs as [|x xs IH]; intros p tfs tf Htfs Htf Hfit Hu; cbn [map push_all].
  - exists p. rewrite Z.add_0_r, app_nil_r. repeat split; assumption.
  - inversion Hu as [|? ? Hx Hxs]; subst. cbn [length] in Hfit.
    unfold push_back at 1. rewrite Z.eqb_refl, Htfs, back_app.
    destruct (Z.leb_spec tf 0xFFFE); [|lia].
    rewrite set_back_app. unfold uint16_t. rewrite Z.mod_small by lia.
    rewrite uint32_small by exact Hx.
    set (p1 := Build_index_postings _ _ _ _ _).
    destruct (IH p1 tfs (tf + 1)) as (p' & Hrun & Hdoc & Hids & Htfs' & Hpos);
      [reflexivity | lia | lia | exact Hxs |].
    exists p'. change (highest_document p1) with (highest_document p) in Hrun, Hdoc.
    rewrite Hrun. repeat split; try assumption.
    + rewrite Htfs'. cbn [length]. do 2 f_equal. lia.
    + rewrite Hpos. unfold p1, dynamic_array.push_back. cbn [positions].
      now rewrite <- app_assoc.
Qed.

Lemma push_groups (groups : list (Z * list Z)) :
  forall p : index_postings,
    Forall group_ok groups -> new_documents (highest_document p) groups ->
    exists p',
      push_all (postings_of groups) p = Some p'
      /\ document_ids p' = document_ids p ++ map fst groups
      /\ term_frequencies p' = term_frequencies p ++ map occurrences groups
      /\ positions p' = positions p ++ concat (map snd groups).
Proof.
  induction groups as [|[d ps] groups IH]; intros p Hok Hnew.
  - exists p. cbn. rewrite !app_nil_r. repeat split.
  - inversion Hok as [|? ? (Hd & Hne & Hocc & Hu) Hrest]; subst.
    cbn [fst snd] in Hd, Hne, Hocc, Hu. unfold occurrences in Hocc. cbn [snd] in Hocc.
    destruct Hnew as [Hdoc Hnew]. cbn [fst] in Hdoc, Hnew.
    destruct ps as [|x xs]; [contradiction|].
    inversion Hu as [|? ? Hx Hxs]; subst.
    unfold postings_of. cbn [flat_map fst snd map]. fold (postings_of groups).
    cbn [app push_all]. unfold push_back at 1.
    destruct (Z.eqb_spec d (highest_document p)); [contradiction|].
    rewrite !uint32_small by lia.
    set (p1 := Build_index_postings _ _ _ _ _).
    rewrite push_all_app.
    destruct (push_same_document xs p1 (term_frequencies p) 1)
      as (p2 & Hrun & Hdoc2 & Hids2 & Htfs2 & Hpos2);
      [reflexivity | lia | cbn [length] in Hocc; lia | exact Hxs |].
    change (highest_document p1) with d in Hrun, Hdoc2. rewrite Hrun.
    destruct (IH p2 Hrest) as (p' & Hrun' & Hids' & Htfs' & Hpos');
      [rewrite Hdoc2; exact Hnew|].
    exists p'. rewrite Hrun'. split; [reflexivity|].
    rewrite Hids', Htfs', Hpos', Hids2, Htfs2, Hpos2.
    unfold p1, dynamic_array.push_back, occurrences.
    cbn [document_ids positions map fst snd concat length].
    rewrite <- !app_assoc. cbn [app].
    repeat split. do 3 f_equal. lia.
Qed.

(** *** Rendering *)

Fixpoint commas (positions : list Z) : string :=
  match positions with
  | [] => ""
  | x :: rest => ("," ++ decimal x ++ commas rest)%string
  end.

(** One document: [<docid,tf,pos,pos,...>]. *)
Definition render_group (g : Z * list Z) : string :=
  ("<" ++ decimal (fst g) ++ "," ++ decimal (occurrences g) ++ commas (snd g)
     ++ ">")%string.

Fixpoint render_all (groups : list (Z * list Z)) : string :=
  match groups with
  | [] => ""
  | g :: rest => (render_group g ++ render_all rest)%string
  end.

(** The rendering of a whole list; an empty list is rendered as a lone
    [>]. *)
Definition render_groups (groups : list (Z * list Z)) : string :=
  match groups with
  | [] => ">"
  | _ => render_all groups
  end.

Variable p : index_postings.
Variable groups : list (Z * list Z).
Hypothesis groups_ok : Forall group_ok groups.
Hypothesis documents : document_ids p = map fst groups.
Hypothesis frequencies : term_frequencies p = map occurrences groups.
Hypothesis all_positions : positions p = concat (map snd groups).

(** The iterator in document [i], at position [at_position], with
    [remaining] positions of that document to go. *)
Definition iterator_at (i at_position : nat) (remaining : Z) : iterator :=
  {| document := i;
     frequency := i;
     position := at_position;
     frequency_end := length groups;
     frequencies_remaining := remaining |}.

(** What [frequencies_remaining] is set to on entering document [i]. *)
Definition remaining_at (i : nat) : Z :=
  if Nat.eqb i (length groups) then 0 else nth i (term_frequencies p) 0.

Lemma step_within_document (i at_position : nat) (x : Z) (xs pre post : list Z) :
  positions p = pre ++ (x :: xs) ++ post -> length pre = at_position ->
  Z.of_nat (length (x :: xs)) <= 0xFFFF ->
  iterator_ne (iterator_at i at_position (Z.of_nat (length (x :: xs)))) (end_ p) = true
  /\ nth at_position (positions p) 0 = x
  /\ iterator_next p (iterator_at i at_position (Z.of_nat (length (x :: xs))))
     = match xs with
       | [] => iterator_at (S i) (S at_position) (remaining_at (S i))
       | _ => iterator_at i (S at_position) (Z.of_nat (length xs))
       end.
Proof.
  intros Hpos Hpre Hfit. repeat split.
  - unfold iterator_ne, end_, iterator_new, dynamic_array.end_, iterator_at.
    cbn [position]. rewrite Hpos, !length_app. cbn [length].
    apply negb_true_iff, Nat.eqb_neq. lia.
  - rewrite Hpos, <- Hpre. cbn [app]. apply nth_middle.
  - unfold iterator_next, iterator_at.
    cbn [frequencies_remaining document frequency position frequency_end].
    cbn [length] in *. unfold uint32_t. rewrite Z.mod_small by lia.
    destruct xs as [|x' xs'].
    + cbn [length]. change (Z.of_nat 1 - 1 <=? 0) with true. cbn iota.
      unfold remaining_at. reflexivity.
    + destruct (Z.leb_spec (Z.of_nat (S (length (x' :: xs'))) - 1) 0);
        [cbn [length] in *; lia|].
      do 2 f_equal. lia.
Qed.

Lemma deref_at (i at_position : nat) (remaining : Z) :
  iterator_deref p (iterator_at i at_position remaining)
  = (nth i (document_ids p) 0, nth i (term_frequencies p) 0,
     nth at_position (positions p) 0).
Proof. reflexivity. Qed.

(** The positions of document [i] after its first one. *)
Lemma render_rest_of_document (d : Z) (i : nat) (xs : list Z) :
  forall (at_position : nat) (pre post : list Z) (fuel : nat) (stream : string),
    positions p = pre ++ xs ++ post -> length pre = at_position ->
    Z.of_nat (length xs) <= 0xFFFF ->
    nth i (document_ids p) 0 = d ->
    text_render_loop (length xs + fuel) p
      match xs with
      | [] => iterator_at (S i) at_position (remaining_at (S i))
      | _ => iterator_at i at_position (Z.of_nat (length xs))
      end d stream
    = text_render_loop fuel p
        (iterator_at (S i) (at_position + length xs) (remaining_at (S i))) d
        (stream ++ commas xs)%string.
Proof.
  induction xs as [|x xs IH]; intros at_position pre post fuel stream Hpos Hpre Hfit Hd.
  - cbn [length Nat.add commas]. now rewrite Nat.add_0_r, string_app_nil_r.
  - destruct (step_within_document i at_position x xs pre post Hpos Hpre Hfit)
      as (Hne & Hnth & Hnext).
    cbn [length Nat.add text_render_loop]. cbn [length] in Hne, Hnext.
    rewrite Hne, deref_at, Hd, Hnth. cbn beta iota.
    rewrite Z.eqb_refl. cbn [negb]. rewrite Hnext.
    rewrite (IH (S at_position) (pre ++ [x]) post fuel).
    + cbn [commas]. rewrite !string_app_assoc.
      replace (S at_position + length xs)%nat with (at_position + S (length xs))%nat
        by lia.
      reflexivity.
    + rewrite Hpos, <- app_assoc. reflexivity.
    + rewrite length_app. cbn [length]. lia.
    + cbn [length] in Hfit. lia.
    + exact Hd.
Qed.

(** What is printed from the start of a document on: [first] tells whether
    it is the first document of the list. *)
Fixpoint render_from (first : bool) (todo : list (Z * list Z)) : string :=
  match todo with
  | [] => ">"
  | g :: rest =>
      ((if first then "" else ">")
         ++ "<" ++ decimal (fst g) ++ "," ++ decimal (occurrences g)
         ++ commas (snd g) ++ render_from false rest)%string
  end.

Definition positions_in (gs : list (Z * list Z)) : nat :=
  length (concat (map snd gs)).

Lemma render_documents (todo : list (Z * list Z)) :
  forall (done : list (Z * list Z)) (previous : Z) (stream : string),
    groups = done ++ todo ->
    new_documents previous todo ->
    (previous = index_postings.uint32_max <-> done = []) ->
    text_render_loop (S (positions_in todo)) p
      (iterator_at (length done) (positions_in done) (remaining_at (length done)))
      previous stream
    = Some (stream ++ render_from (match done with [] => true | _ => false end) todo)%string.
Proof.
  induction todo as [|[d ps] todo IH]; intros done previous stream Hgroups Hnew Hfirst.
  - rewrite app_nil_r in Hgroups. subst done.
    cbn [positions_in map concat length text_render_loop render_from].
    unfold iterator_ne, end_, iterator_new, dynamic_array.end_, iterator_at.
    cbn [position]. rewrite all_positions. fold (positions_in groups).
    rewrite Nat.eqb_refl. reflexivity.
  - assert (Hok : group_ok (d, ps)).
    { rewrite Forall_forall in groups_ok. apply groups_ok. rewrite Hgroups.
      apply in_or_app. right. now left. }
    destruct Hok as (Hd & Hne & Hocc & Hu). cbn [fst snd] in Hd, Hne, Hocc, Hu.
    unfold occurrences in Hocc. cbn [snd] in Hocc.
    destruct Hnew as [Hdoc Hnew]. cbn [fst] in Hdoc, Hnew.
    destruct ps as [|x xs]; [contradiction|].
    assert (Hpos : positions p
                   = concat (map snd done) ++ (x :: xs) ++ concat (map snd todo)).
    { rewrite all_positions, Hgroups, map_app, concat_app. reflexivity. }
    assert (Hnthd : nth (length done) (document_ids p) 0 = d).
    { rewrite documents, Hgroups, map_app.
      rewrite <- (length_map fst done). apply nth_middle. }
    assert (Hnthf : nth (length done) (term_frequencies p) 0
                    = Z.of_nat (length (x :: xs))).
    { rewrite frequencies, Hgroups, map_app.
      rewrite <- (length_map occurrences done). apply nth_middle. }
    assert (Hrem : remaining_at (length done) = Z.of_nat (length (x :: xs))).
    { unfold remaining_at. rewrite Hgroups, length_app. cbn [length].
      destruct (Nat.eqb_spec (length done) (length done + S (length todo))); [lia|].
      exact Hnthf. }
    destruct (step_within_document (length done) (positions_in done) x xs
                (concat (map snd done)) (concat (map snd todo)) Hpos eq_refl Hocc)
      as (Hne' & Hnth & Hnext).
    rewrite Hrem.
    replace (S (positions_in ((d, x :: xs) :: todo)))
      with (S (length xs + S (positions_in todo)))
      by (unfold positions_in; cbn [map concat snd]; rewrite length_app; cbn [length];
          lia).
    cbn [text_render_loop]. rewrite Hne', deref_at, Hnthd, Hnthf, Hnth.
    cbn beta iota.
    destruct (Z.eqb_spec d previous); [contradiction|]. cbn [negb].
    rewrite Hnext.
    rewrite (render_rest_of_document d (length done) xs (S (positions_in done))
               (concat (map snd done) ++ [x]) (concat (map snd todo)));
      [ | rewrite Hpos, <- app_assoc; reflexivity
        | rewrite length_app; cbn [length]; unfold positions_in; lia
        | cbn [length] in Hocc; lia
        | exact Hnthd ].
    specialize (IH (done ++ [(d, x :: xs)]) d).
    rewrite length_app in IH. cbn [length] in IH.
    replace (positions_in (done ++ [(d, x :: xs)]))
      with (S (positions_in done) + length xs)%nat in IH
      by (unfold positions_in; rewrite map_app, concat_app, length_app;
          cbn [map concat snd length app]; rewrite app_nil_r; cbn [length]; lia).
    replace (length done + 1)%nat with (S (length done)) in IH by lia.
    rewrite IH.
    + f_equal. cbn [render_from fst snd]. unfold occurrences. cbn [snd commas].
      destruct (done ++ [(d, x :: xs)]) eqn:E; [destruct done; discriminate E|].
      destruct done as [|g0 done0].
      * destruct (Z.eqb_spec previous index_postings.uint32_max) as [_|Hn];
          [|exfalso; apply Hn, Hfirst; reflexivity].
        cbn [negb]. rewrite !string_app_assoc. reflexivity.
      * destruct (Z.eqb_spec previous index_postings.uint32_max) as [Hp|_];
          [apply Hfirst in Hp; discriminate Hp|].
        cbn [negb]. rewrite !string_app_assoc. reflexivity.
    + rewrite Hgroups, <- app_assoc. reflexivity.
    + exact Hnew.
    + split.
      * intros ->. unfold index_postings.uint32_max in Hd. lia.
      * intros E. destruct done; discriminate E.
Qed.

Lemma render_from_all (todo : list (Z * list Z)) :
  render_from false todo = (">" ++ render_all todo)%string.
Proof.
  induction todo as [|g todo IH]; [reflexivity|].
  cbn [render_from render_all]. unfold render_group. rewrite IH.
  rewrite !string_app_assoc. reflexivity.
Qed.

Lemma text_render_groups :
  new_documents index_postings.uint32_max groups ->
  text_render p = Some (render_groups groups).
Proof.
  intros Hnew. unfold text_render.
  pose proof (render_documents groups [] index_postings.uint32_max "" eq_refl Hnew) as H.
  cbn [length positions_in map concat] in H.
  rewrite all_positions. fold (positions_in groups).
  assert (Hbegin : begin_ p = iterator_at 0 0 (remaining_at 0)).
  { unfold begin_, iterator_new, iterator_at, remaining_at, dynamic_array.begin_,
      dynamic_array.end_. rewrite frequencies, length_map. reflexivity. }
  rewrite Hbegin, H by (split; reflexivity).
  f_equal. destruct groups as [|g rest]; [reflexivity|].
  cbn [render_from render_groups render_all app String.append]. unfold render_group.
  rewrite render_from_all, !string_app_assoc. reflexivity.
Qed.

End postings_in_general.

Section pushed_postings.
Import index_postings.

(** One term frequency per document id, each between 1 and 0xFFFF. *)
Definition frequencies_ok (p : index_postings) : Prop :=
  length (document_ids p) = length (term_frequencies p)
  /\ Forall (fun tf => 1 <= tf <= 0xFFFF) (term_frequencies p).

Lemma push_back_keeps (p : index_postings) (document_id position : Z) :
  frequencies_ok p -> term_frequencies p <> [] ->
  exists p',
    push_back document_id position p = Some p'
    /\ frequencies_ok p' /\ term_frequencies p' <> []
    /\ positions p' = positions p ++ [uint32_t position]
    /\ sumZ (term_frequencies p') <= sumZ (term_frequencies p) + 1
    /\ highest_document p' = document_id /\ highest_position p' = position.
Proof.
  intros [Hlen Hrange] Hne.
  destruct (exists_last Hne) as (tfs & tf & E).
  rewrite E in Hlen, Hrange |- *. apply Forall_app in Hrange as [Hrange Htf].
  inversion Htf as [|? ? Htf' _]; subst.
  unfold push_back, frequencies_ok.
  destruct (Z.eqb_spec document_id (highest_document p)) as [->|Hnew].
  - rewrite E, back_app.
    destruct (Z.leb_spec tf 0xFFFE).
    + rewrite set_back_app. unfold uint16_t. rewrite Z.mod_small by lia.
      eexists. split; [reflexivity|]. cbn [document_ids term_frequencies positions
        highest_document highest_position].
      rewrite !sum_app, !length_app in *. cbn [length sumZ fold_right] in *.
      repeat split; try lia; try reflexivity.
      * apply Forall_app. split; [assumption|]. constructor; [lia | constructor].
      * intros H'. destruct tfs; discriminate H'.
    + eexists. split; [reflexivity|]. cbn [document_ids term_frequencies positions
        highest_document highest_position].
      repeat split; try lia; try reflexivity; try assumption.
      * apply Forall_app. split; assumption.
      * intros H'. destruct tfs; discriminate H'.
  - eexists. split; [reflexivity|]. cbn [document_ids term_frequencies positions
      highest_document highest_position]. unfold dynamic_array.push_back.
    rewrite E, !sum_app, !length_app in *. cbn [length sumZ fold_right] in *.
    repeat split; try lia; try reflexivity.
    + repeat (apply Forall_app; split); try assumption; constructor; [lia | constructor].
    + intros H'. destruct tfs; discriminate H'.
Qed.

Lemma push_all_keeps (postings : list (Z * Z)) :
  forall p : index_postings,
    frequencies_ok p -> term_frequencies p <> [] ->
    exists p',
      push_all postings p = Some p'
      /\ frequencies_ok p' /\ term_frequencies p' <> []
      /\ positions p' = positions p ++ map (fun posting => uint32_t (snd posting)) postings
      /\ sumZ (term_frequencies p')
         <= sumZ (term_frequencies p) + Z.of_nat (length postings).
Proof.
  induction postings as [|[d x] postings IH]; intros p Hok Hne.
  - exists p. cbn. rewrite app_nil_r. repeat split; try assumption; try apply Hok. lia.
  - destruct (push_back_keeps p d x Hok Hne)
      as (p1 & Hpush & Hok1 & Hne1 & Hpos1 & Hsum1 & _).
    destruct (IH p1 Hok1 Hne1) as (p' & Hrun & Hok' & Hne' & Hpos' & Hsum').
    exists p'. cbn [push_all]. rewrite Hpush, Hrun.
    repeat split; try assumption; try apply Hok'.
    + rewrite Hpos', Hpos1, <- app_assoc. reflexivity.
    + cbn [length]. lia.
Qed.

(** The only undefined sequence of calls on a new postings list is one that
    starts with document id 0; every other sequence keeps one term frequency
    per document id, each between 1 and 0xFFFF, stores every position pushed,
    in order, and never counts more occurrences than were pushed. *)
Theorem push_all_invariants (postings : list (Z * Z)) :
  (push_all postings new = None
   <-> exists position rest, postings = (0, position) :: rest)
  /\ forall p : index_postings,
      push_all postings new = Some p ->
      length (document_ids p) = length (term_frequencies p)
      /\ Forall (fun tf => 1 <= tf <= 0xFFFF) (term_frequencies p)
      /\ positions p = map (fun posting => uint32_t (snd posting)) postings
      /\ sumZ (term_frequencies p) <= Z.of_nat (length postings).
Proof.
  destruct postings as [|[d x] postings].
  - split.
    + split; [discriminate | intros (? & ? & E); discriminate E].
    + intros p E. injection E as <-. cbn. repeat split; [constructor | lia].
  - cbn [push_all]. unfold push_back. cbn [highest_document new].
    destruct (Z.eqb_spec d 0) as [->|Hd].
    + cbn. split; [|discriminate].
      split; [intros _; exists x, postings; reflexivity | reflexivity].
    + set (p1 := Build_index_postings _ _ _ _ _).
      destruct (push_all_keeps postings p1) as (p' & Hrun & [Hlen Hrange] & _ & Hpos & Hsum).
      { split; [reflexivity|]. cbn. constructor; [lia | constructor]. }
      { discriminate. }
      rewrite Hrun. split.
      * split; [discriminate|]. intros (? & ? & E). injection E as E _ _. contradiction.
      * intros p E. injection E as <-. repeat split; try assumption.
        change (sumZ (term_frequencies p1)) with 1 in Hsum. cbn [length]. lia.
Qed.

(** Pushed document by document (ids below 0xFFFFFFFF, each document new, at
    most 0xFFFF positions each), a postings list holds one id and one count
    per document and all the positions, and text_render prints
    [<docid,tf,pos,...,pos>] for each document in turn (a lone [>] when there
    is none). *)
Theorem text_render_of_pushed_postings (groups : list (Z * list Z)) :
  Forall group_ok groups -> new_documents 0 groups ->
  exists p : index_postings,
    push_all (postings_of groups) new = Some p
    /\ document_ids p = map fst groups
    /\ term_frequencies p = map occurrences groups
    /\ positions p = concat (map snd groups)
    /\ text_render p = Some (render_groups groups).
Proof.
  intros Hok Hnew.
  destruct (push_groups groups new Hok Hnew) as (p & Hrun & Hids & Htfs & Hpos).
  cbn [new document_ids term_frequencies positions app] in Hids, Htfs, Hpos.
  exists p. repeat split; try assumption.
  apply (text_render_groups p groups Hok Hids Htfs Hpos).
  destruct groups as [|g rest]; [exact I|].
  destruct Hnew as [_ Hnew]. split; [|exact Hnew].
  inversion Hok as [|? ? (Hd & _) _]; subst. unfold index_postings.uint32_max. lia.
Qed.

End pushed_postings.

Lemma text_render_of_pushed_postings_witness :
  exists p : index_postings.index_postings,
    index_postings.push_all (postings_of [(1, [5; 9]); (3, [2])]) index_postings.new
    = Some p
    /\ index_postings.document_ids p = [1; 3]
    /\ index_postings.term_frequencies p = [2; 1]
    /\ index_postings.positions p = [5; 9; 2]
    /\ index_postings.text_render p = Some "<1,2,5,9><3,1,2>"%string.
Proof.
  apply (text_render_of_pushed_postings [(1, [5; 9]); (3, [2])]).
  - repeat constructor; cbn; try lia; discriminate.
  - cbn. lia.
Defined.

(** ** printer: the two ways of printing a posting agree *)
Section printer_entry_points.
Import printer.

(** The vectorised push_back prints what add_rsv prints when called once
    per nonzero lane, in lane order, with the impact given to set_score. *)
Theorem push_back_is_add_rsv_per_nonzero_lane
    (this : printer) (impact : Z) (document_ids : list Z) (cout : string) :
  length document_ids = 8%nat ->
  push_back document_ids (set_score impact this) cout
  = fold_left (fun cout document => add_rsv document impact this cout)
      (filter (fun document => negb (document =? 0)) document_ids) cout.
Proof.
  intros Hlen. unfold push_back, set_score, add_rsv. cbn [printer.impact].
  pose proof (map_at_indices document_ids) as Hmap.
  rewrite Hlen in Hmap. change (Z.of_nat 8) with 8 in Hmap.
  replace (filter (fun document => negb (document =? 0)) document_ids)
    with (filter (fun document => negb (document =? 0))
            (map (at_ document_ids) (indices 8)))
    by (rewrite Hmap; reflexivity).
  clear Hmap Hlen.
  generalize (indices 8). intros lanes. revert cout.
  induction lanes as [|which lanes IH]; intros cout; [reflexivity|].
  cbn [fold_left map filter]. rewrite IH.
  destruct (negb (at_ document_ids which =? 0)); reflexivity.
Qed.

End printer_entry_points.

Lemma push_back_is_add_rsv_per_nonzero_lane_witness :
  printer.push_back [7; 0; 0; 12; 0; 0; 0; 3]
    (printer.set_score 5 {| printer.impact := 0 |}) ""%string
  = fold_left
      (fun cout document =>
         printer.add_rsv document 5 {| printer.impact := 0 |} cout)
      (filter (fun document => negb (document =? 0)) [7; 0; 0; 12; 0; 0; 0; 3])
      ""%string.
Proof.
  apply (push_back_is_add_rsv_per_nonzero_lane {| printer.impact := 0 |} 5
           [7; 0; 0; 12; 0; 0; 0; 3] ""%string).
  reflexivity.
Defined.
